(** * posemusic-web: gesture classification and playback trigger of [camera.js]

    A shallow embedding of the part of [src/camera.js] that turns PoseNet
    poses into Spotify playback requests:

    - the per-pose callback of [poseDetectionFrame] (lines 504-623) with its
      local helpers [isAllConfidentParts], [getScore], [getX], [getY],
      [headX], [headY];
    - [updateState] (lines 52-84), [songLookup] (lines 33-50), [authorize]
      (lines 678-681) and [getSelectedDevice] (lines 713-716);
    - [updateDeviceList] (lines 692-711), the script of the page that takes
      the access token from the address (lines 666-690), and the code of
      [poseDetectionFrame] that reloads the network when the GUI asks for it
      (lines 366-442).

    Conventions.
    - JavaScript numbers that come out of PoseNet or the GUI (scores,
      coordinates, thresholds) are finite and are kept as rationals [Q]; the
      one division of the program, in [headX] / [headY], can divide by zero
      and returns a [number], which adds the infinities and NaN.  Rounding
      of the floating-point sum and quotient is not modelled; the concrete
      poses used below have small integer coordinates, where the sum and the
      quotient are exact.
    - A property access on [undefined] raises a [TypeError]; computations
      that can raise live in [completion].
    - [updateState] reads and writes the global [currentState] and talks to
      the console, the DOM, the Spotify client and the browser location.
      It is an [Action]: a function of the held [currentState] that returns
      a completion, the new [currentState] and the events it emitted, in
      order.  The answers of the environment during one call are a [world].
    - [updateState] as an [Action] is one call from its start to its end.
      Calls that overlap, as the frame loop produces them, are turns of the
      event loop on a [loop] state; [poseDetectionFrame] and [frames] are
      the runs in which the requests of a frame settle before the next
      frame. *)

From Stdlib Require Import QArith ZArith Ascii String List Lia Lqa.
From stdpp Require Import base gmap strings list.

Open Scope string_scope.

(** ** JavaScript numbers *)

Inductive number :=
| Fin (q : Q)
| PosInf
| NegInf
| NaN.

(** [a < b] on finite numbers. *)
Definition Qltb (a b : Q) : bool := negb (Qle_bool b a).

(** [a < b]; every comparison with NaN is false. *)
Definition js_lt (a b : number) : bool :=
  match a, b with
  | Fin p, Fin q => Qltb p q
  | Fin _, PosInf => true
  | NegInf, Fin _ => true
  | NegInf, PosInf => true
  | _, _ => false
  end.

(** [a > b]. *)
Definition js_gt (a b : number) : bool := js_lt b a.

(** [a === b] on numbers: NaN is not equal to itself. *)
Definition js_eq (a b : number) : bool :=
  match a, b with
  | Fin p, Fin q => Qeq_bool p q
  | PosInf, PosInf => true
  | NegInf, NegInf => true
  | _, _ => false
  end.

(** [a / n] for a finite [a] and an array length [n]: [0 / 0] is NaN. *)
Definition js_div (a : Q) (n : nat) : number :=
  match n with
  | O => match (a ?= 0)%Q with
         | Eq => NaN
         | Gt => PosInf
         | Lt => NegInf
         end
  | S _ => Fin (a / inject_Z (Z.of_nat n))
  end.

(** ** Completions: a value, or a thrown exception *)

Inductive exception :=
| TypeError                    (* property access on undefined or null *)
| Rejection (status : Z).      (* the request object a Spotify call rejects with *)

(** [ex.status]: [undefined] on a [TypeError]. *)
Definition ex_status (ex : exception) : option Z :=
  match ex with
  | TypeError => None
  | Rejection s => Some s
  end.

Inductive completion (A : Type) :=
| Normal (a : A)
| Throw (ex : exception).
Arguments Normal {A} a.
Arguments Throw {A} ex.

Module Completion.

Definition bind {A B} (c : completion A) (f : A -> completion B) : completion B :=
  match c with
  | Normal a => f a
  | Throw ex => Throw ex
  end.

(** [a && b]: [b] is evaluated only when [a] is true. *)
Definition and (a b : completion bool) : completion bool :=
  bind a (fun va => if va then b else Normal false).

(** [a || b]: [b] is evaluated only when [a] is false. *)
Definition or (a b : completion bool) : completion bool :=
  bind a (fun va => if va then Normal true else b).

(** [xs.map(f)], left to right; the first exception aborts the loop. *)
Fixpoint map {A B} (f : A -> completion B) (xs : list A) : completion (list B) :=
  match xs with
  | [] => Normal []
  | a :: xs' =>
      bind (f a) (fun b => bind (map f xs') (fun bs => Normal (b :: bs)))
  end.

(** [xs.filter(f)], left to right. *)
Fixpoint filter {A} (f : A -> completion bool) (xs : list A) : completion (list A) :=
  match xs with
  | [] => Normal []
  | a :: xs' =>
      bind (f a) (fun keep =>
      bind (filter f xs') (fun ys => Normal (if keep then a :: ys else ys)))
  end.

End Completion.

#[global] Instance completion_ret : MRet completion := @Normal.
#[global] Instance completion_bind : MBind completion :=
  fun A B f c => Completion.bind c f.

Declare Scope completion_scope.
Delimit Scope completion_scope with C.
Notation "a &&& b" := (Completion.and a b)
  (at level 40, left associativity) : completion_scope.
Notation "a ||| b" := (Completion.or a b)
  (at level 50, left associativity) : completion_scope.

(** ** Poses, as PoseNet returns them *)

Module Position.
Record t := mk { x : Q; y : Q }.
End Position.

Module Keypoint.
Record t := mk { score : Q; part : string; position : Position.t }.
End Keypoint.

Module Pose.
Record t := mk { score : Q; keypoints : list Keypoint.t }.
End Pose.

(** ** The helpers local to the pose callback (lines 508-557) *)

Section Helpers.

Variable minPartConfidence : Q.
Variable keypoints : list Keypoint.t.

Open Scope completion_scope.

(** [keypoints.find(kp => kp.part === partName)]: the first keypoint of that
    part, [undefined] when there is none. *)
Definition find_part (partName : string) : option Keypoint.t :=
  List.find (fun kp => String.eqb (Keypoint.part kp) partName) keypoints.

(** Reading a property of the result of [find]. *)
Definition property {A} (keypoint : option Keypoint.t) (get : Keypoint.t -> A)
  : completion A :=
  match keypoint with
  | Some kp => Normal (get kp)
  | None => Throw TypeError
  end.

Definition getScore (partName : string) : completion Q :=
  property (find_part partName) Keypoint.score.

Definition getX (partName : string) : completion Q :=
  property (find_part partName) (fun kp => Position.x (Keypoint.position kp)).

Definition getY (partName : string) : completion Q :=
  property (find_part partName) (fun kp => Position.y (Keypoint.position kp)).

(** [partNames.map(...)] collects every score first (and raises on the first
    absent part), then [.every(...)] tests them. *)
Definition isAllConfidentParts (partNames : list string) : completion bool :=
  scores ← Completion.map getScore partNames;
  Normal (forallb (fun confidence => Qltb minPartConfidence confidence) scores).

Definition headParts : list string :=
  ["nose"; "leftEye"; "rightEye"; "leftEar"; "rightEar"].

Definition confidentHeadParts : completion (list string) :=
  Completion.filter
    (fun partName => s ← getScore partName; Normal (Qltb minPartConfidence s))
    headParts.

(** [vals.reduce((a, b) => a + b, 0) / vals.length], as the exact mean: the
    rounding of the sum and of the quotient to a double is left out.  The
    mean of the empty array is 0 / 0, which is NaN; the mean of a non-empty
    array is not NaN, with or without rounding. *)
Definition average (vals : list Q) : number :=
  js_div (fold_left Qplus vals 0%Q) (length vals).

Definition headX : completion number :=
  parts ← confidentHeadParts;
  vals ← Completion.map getX parts;
  Normal (average vals).

Definition headY : completion number :=
  parts ← confidentHeadParts;
  vals ← Completion.map getY parts;
  Normal (average vals).

(** Comparisons: the left operand is evaluated first. *)
Definition lt (a b : completion Q) : completion bool :=
  va ← a; vb ← b; Normal (Qltb va vb).

Definition gt (a b : completion Q) : completion bool :=
  va ← a; vb ← b; Normal (Qltb vb va).

Definition lt_head (a : completion Q) (h : completion number) : completion bool :=
  va ← a; vh ← h; Normal (js_lt (Fin va) vh).

Definition gt_head (a : completion Q) (h : completion number) : completion bool :=
  va ← a; vh ← h; Normal (js_gt (Fin va) vh).

Definition arms : list string :=
  ["leftWrist"; "leftElbow"; "leftShoulder";
   "rightWrist"; "rightElbow"; "rightShoulder"].

Definition forearms : list string :=
  ["leftWrist"; "leftElbow"; "rightWrist"; "rightElbow"].

(** The wrists on opposite sides of the head (lines 566-567, 600-601). *)
Definition wristsAstride : completion bool :=
  (lt_head (getX "leftWrist") headX &&& gt_head (getX "rightWrist") headX) |||
  (gt_head (getX "leftWrist") headX &&& lt_head (getX "rightWrist") headX).

(** Both wrists on one side of the head (lines 583-584, 615-616). *)
Definition wristsAside : completion bool :=
  (lt_head (getX "leftWrist") headX &&& lt_head (getX "rightWrist") headX) |||
  (gt_head (getX "leftWrist") headX &&& gt_head (getX "rightWrist") headX).

(** One arm up and the other down (lines 576-580, 593-597). *)
Definition oneArmUp : completion bool :=
  (lt (getY "leftWrist") (getY "leftElbow") &&&
   lt (getY "leftElbow") (getY "leftShoulder") &&&
   gt (getY "rightWrist") (getY "rightElbow") &&&
   gt (getY "rightElbow") (getY "rightShoulder")) |||
  (gt (getY "leftWrist") (getY "leftElbow") &&&
   gt (getY "leftElbow") (getY "leftShoulder") &&&
   lt (getY "rightWrist") (getY "rightElbow") &&&
   lt (getY "rightElbow") (getY "rightShoulder")).

(** "check for hands above heads" (lines 560-569) *)
Definition isYMCA : completion bool :=
  isAllConfidentParts arms &&&
  (lt (getY "leftWrist") (getY "leftElbow") &&&
   lt (getY "leftElbow") (getY "leftShoulder") &&&
   lt (getY "rightWrist") (getY "rightElbow") &&&
   lt (getY "rightElbow") (getY "rightShoulder")) &&&
  wristsAstride.

(** "check for sharks" (lines 573-586) *)
Definition isBabyShark : completion bool :=
  isAllConfidentParts arms &&& oneArmUp &&& wristsAside.

(** "check for disco" (lines 590-603) *)
Definition isDisco : completion bool :=
  isAllConfidentParts arms &&& oneArmUp &&& wristsAstride.

(** "check for thriller" (lines 607-618) *)
Definition isThriller : completion bool :=
  isAllConfidentParts forearms &&&
  (lt (getY "leftWrist") (getY "leftElbow") &&&
   lt (getY "rightWrist") (getY "rightElbow")) &&&
  wristsAside.

(** The [if] / [else if] chain of lines 560-620: the name [updateState] is
    called with, [None] when no branch is taken. *)
Definition matchedGesture : completion (option string) :=
  c1 ← isYMCA;
  if (c1 : bool) then Normal (Some "YMCA") else
  c2 ← isBabyShark;
  if (c2 : bool) then Normal (Some "Baby Shark") else
  c3 ← isDisco;
  if (c3 : bool) then Normal (Some "Disco") else
  c4 ← isThriller;
  if (c4 : bool) then Normal (Some "Thriller") else
  Normal None.

End Helpers.

(** The classification of one pose: the gate [score >= minPoseConfidence] of
    line 505 around the chain. *)
Definition classify (minPoseConfidence minPartConfidence : Q) (pose : Pose.t)
  : completion (option string) :=
  if Qle_bool minPoseConfidence (Pose.score pose)
  then matchedGesture minPartConfidence (Pose.keypoints pose)
  else Normal None.

(** ** The environment of [updateState] *)

(** [spotifyApi.play({device_id, uris})] and [spotifyApi.seek(position_ms)],
    with the arguments the program passes. *)
Inductive request :=
| play (device_id : string) (uris : list (option string))
| seek (position_ms : Q).

(** The device identifier a request carries. *)
Definition request_device_id (rq : request) : option string :=
  match rq with
  | play device_id _ => Some device_id
  | seek _ => None
  end.

(** How the promise of a Spotify call settles; a rejection carries the
    request object, of which the program reads [status]. *)
Inductive reply :=
| Resolved
| Rejected (status : Z).

Inductive event :=
| console_log (args : list string)
| console_error (args : list string)
| spotify (rq : request) (rp : reply)
| redirect_to_authorize.   (* the assignment to [window.location.href] *)

(** The [<select id="devices">] element filled by [updateDeviceList]: the
    values of its options and its [selectedIndex] (-1 when nothing is
    selected). *)
Record select_element := { options : list string; selectedIndex : Z }.

(** What the environment answers during one call of [updateState]:
    [document.getElementById("devices")] ([None] is [null]) and how the play
    and the seek request settle if they are issued. *)
Record world := {
  devices : option select_element;
  play_reply : reply;
  seek_reply : reply
}.

(** ** Actions: the held [currentState], exceptions and emitted events *)

Record outcome (A : Type) := {
  result : completion A;
  held : string;               (* [currentState] afterwards *)
  emitted : list event
}.
Arguments result {A} o.
Arguments held {A} o.
Arguments emitted {A} o.

Definition Action (A : Type) : Type := string -> outcome A.

Module Action.

Definition ret {A} (a : A) : Action A :=
  fun cur => {| result := Normal a; held := cur; emitted := [] |}.

Definition bind {A B} (m : Action A) (f : A -> Action B) : Action B :=
  fun cur =>
    let o := m cur in
    match result o with
    | Normal a =>
        let o' := f a (held o) in
        {| result := result o'; held := held o';
           emitted := emitted o ++ emitted o' |}
    | Throw ex =>
        {| result := Throw ex; held := held o; emitted := emitted o |}
    end.

(** [try { m } catch (ex) { handler ex }] *)
Definition try_catch {A} (m : Action A) (handler : exception -> Action A) : Action A :=
  fun cur =>
    let o := m cur in
    match result o with
    | Normal a => o
    | Throw ex =>
        let o' := handler ex (held o) in
        {| result := result o'; held := held o';
           emitted := emitted o ++ emitted o' |}
    end.

Definition lift {A} (c : completion A) : Action A :=
  fun cur => {| result := c; held := cur; emitted := [] |}.

Definition emit (e : event) : Action unit :=
  fun cur => {| result := Normal tt; held := cur; emitted := [e] |}.

Definition get_currentState : Action string :=
  fun cur => {| result := Normal cur; held := cur; emitted := [] |}.

Definition set_currentState (s : string) : Action unit :=
  fun _ => {| result := Normal tt; held := s; emitted := [] |}.

(** A call whose promise nobody awaits or catches: an exception in it is an
    unhandled rejection and does not reach the caller. *)
Definition detach (m : Action unit) : Action unit :=
  fun cur =>
    let o := m cur in
    {| result := Normal tt; held := held o; emitted := emitted o |}.

(** A Spotify call: the request is emitted with the way it settles, and a
    rejection is thrown at the [await]. *)
Definition call (rq : request) (rp : reply) : Action unit :=
  fun cur =>
    {| result := match rp with
                 | Resolved => Normal tt
                 | Rejected status => Throw (Rejection status)
                 end;
       held := cur;
       emitted := [spotify rq rp] |}.

End Action.

Declare Scope action_scope.
Delimit Scope action_scope with A.
Notation "'let*' v := c 'in' k" := (Action.bind c (fun v => k))
  (at level 10, v name, c at level 100, k at level 200) : action_scope.
Notation "'run' c 'in' k" := (Action.bind c (fun _ => k))
  (at level 10, c at level 100, k at level 200) : action_scope.

(** ** The track catalog (lines 33-50) *)

Module Song.
Record t := mk { uri : string; position : Q }.
End Song.

Definition songLookup : gmap string Song.t :=
  {[ "YMCA" := Song.mk "spotify:track:7Cp69rNBwU0gaFT8zxExlE" (58 * 1000);
     "Baby Shark" := Song.mk "spotify:track:5ygDXis42ncn6kYG14lEVG" (4 * 1000);
     "Disco" := Song.mk "spotify:track:7qK3JFriCqLorQivsJYG2X" 0;
     "Thriller" := Song.mk "spotify:track:7azo4rpSUh8nXgtonC6Pkq" ((181 # 2) * 1000) ]}.

(** [songLookup] is an object literal, so the [in] operator and the property
    read also see the members it inherits from [Object.prototype]. *)
Definition Object_prototype : list string :=
  ["constructor"; "hasOwnProperty"; "isPrototypeOf"; "propertyIsEnumerable";
   "toLocaleString"; "toString"; "valueOf"; "__proto__";
   "__defineGetter__"; "__defineSetter__"; "__lookupGetter__"; "__lookupSetter__"].

(** [name in songLookup] *)
Definition in_songLookup (name : string) : bool :=
  match songLookup !! name with
  | Some _ => true
  | None => existsb (String.eqb name) Object_prototype
  end.

(** [songLookup[name]], read after [in] succeeded: a song, or an inherited
    member, on which [uri] and [position] are [undefined]. *)
Inductive member :=
| own (song : Song.t)
| inherited.

Definition get_songLookup (name : string) : member :=
  match songLookup !! name with
  | Some song => own song
  | None => inherited
  end.

(** [song.uri] *)
Definition member_uri (song : member) : option string :=
  match song with
  | own s => Some (Song.uri s)
  | inherited => None
  end.

(** [song.position], when [song.position > 0] holds ([undefined > 0] is
    false). *)
Definition member_positive_position (song : member) : option Q :=
  match song with
  | own s => if Qltb 0 (Song.position s) then Some (Song.position s) else None
  | inherited => None
  end.

(** ** [getSelectedDevice] (lines 713-716) and [authorize] (lines 678-681) *)

(** [options[i]]: [undefined] outside of the list. *)
Definition js_index {A} (l : list A) (i : Z) : option A :=
  if (i <? 0)%Z then None else l !! Z.to_nat i.

(** [e.options[e.selectedIndex].value] *)
Definition getSelectedDevice (w : world) : completion string :=
  match devices w with
  | None => Throw TypeError
  | Some e =>
      match js_index (options e) (selectedIndex e) with
      | Some value => Normal value
      | None => Throw TypeError
      end
  end.

Definition authorize : Action unit := Action.emit redirect_to_authorize.

(** ** [updateState] (lines 52-84) *)

Section UpdateState.

Open Scope action_scope.

(** [ex.status === 401] *)
Definition is_401 (ex : exception) : bool :=
  match ex_status ex with
  | Some status => (status =? 401)%Z
  | None => false
  end.

Definition updateState (w : world) (newState : string) : Action unit :=
  let* currentState := Action.get_currentState in
  if String.eqb currentState newState then Action.ret tt else
  run Action.emit (console_log ["Updating State:"; newState]) in
  let* currentDevice := Action.lift (getSelectedDevice w) in
  run (if in_songLookup newState then
         let song := get_songLookup newState in
         Action.try_catch
           (run Action.call (play currentDevice [member_uri song]) (play_reply w) in
            match member_positive_position song with
            | Some position => Action.call (seek position) (seek_reply w)
            | None => Action.ret tt
            end)
           (fun ex => if is_401 ex then authorize else Action.ret tt)
       else
         Action.emit (console_error ["Could not find the song for the state:"; newState]))
  in
  Action.set_currentState newState.

(** ** The pose callback and the frame loop (lines 504-623) *)

(** The callback of [poses.forEach] for one pose, from its start to its end
    with no other call in between. *)
Definition poseCallback (w : world) (minPoseConfidence minPartConfidence : Q)
    (pose : Pose.t) : Action unit :=
  let* gesture := Action.lift (classify minPoseConfidence minPartConfidence pose) in
  match gesture with
  | Some name => updateState w name
  | None => Action.ret tt
  end.

(** One animation frame: the thresholds read from the GUI and the poses that
    PoseNet estimated, each with the environment its callback runs in. *)
Record frame := {
  minPoseConfidence : Q;
  minPartConfidence : Q;
  poses : list (Pose.t * world)
}.

(** *** Calls that overlap

    [updateState] is an async function, and nothing waits for a call to end
    before the next one starts: the callback of [poses.forEach] (line 504)
    is itself async, so [forEach] drops its promise, and
    [requestAnimationFrame] (line 628) asks for the next frame while the
    calls of this one may still wait for Spotify.  A call runs without
    interruption up to its next [await]; there it is suspended until the
    awaited request settles.  [currentState] is compared when the call
    starts (line 53) and assigned when it ends (line 83). *)

(** A suspended call: the [await] it stands at, its [newState], and the
    environment that says how its requests settle.  ([song] is
    [songLookup[newState]]; [songLookup] is never modified.) *)
Inductive suspended :=
| awaiting_play (w : world) (newState : string)    (* line 64 *)
| awaiting_seek (w : world) (newState : string).   (* line 70 *)

(** The page between two turns of the event loop: the global
    [currentState], the suspended calls, oldest first, and the events so
    far. *)
Record loop := {
  currentState : string;
  in_flight : list suspended;
  trace : list event
}.

(** A page that holds [cur], with no call under way. *)
Definition fresh (cur : string) : loop :=
  {| currentState := cur; in_flight := []; trace := [] |}.

(** [updateState(newState)] from its start up to the [await] of line 64, or
    to its end when it does not get there.  A request is recorded when it
    is sent, together with the way it is going to settle. *)
Definition updateState_start (w : world) (newState : string) (s : loop) : loop :=
  if String.eqb (currentState s) newState then s else
  let logged := (trace s ++ [console_log ["Updating State:"; newState]])%list in
  match getSelectedDevice w with
  | Throw _ =>
      (* the promise of the call is rejected, and nobody handles it *)
      {| currentState := currentState s; in_flight := in_flight s; trace := logged |}
  | Normal currentDevice =>
      if in_songLookup newState then
        let song := get_songLookup newState in
        {| currentState := currentState s;
           in_flight := (in_flight s ++ [awaiting_play w newState])%list;
           trace := (logged ++
                     [spotify (play currentDevice [member_uri song]) (play_reply w)])%list |}
      else
        {| currentState := newState;
           in_flight := in_flight s;
           trace := (logged ++
                     [console_error ["Could not find the song for the state:";
                                     newState]])%list |}
  end.

(** The catch block (lines 73-77): what it emits for [ex]. *)
Definition catch_block (ex : exception) : list event :=
  if is_401 ex then [redirect_to_authorize] else [].

(** A suspended call goes on once its request has settled: up to the
    [await] of line 70, or to the assignment of line 83. *)
Definition updateState_resume (t : suspended) (s : loop) : loop :=
  match t with
  | awaiting_play w newState =>
      match play_reply w with
      | Resolved =>
          match member_positive_position (get_songLookup newState) with
          | Some position =>
              {| currentState := currentState s;
                 in_flight := (in_flight s ++ [awaiting_seek w newState])%list;
                 trace := (trace s ++ [spotify (seek position) (seek_reply w)])%list |}
          | None =>
              {| currentState := newState; in_flight := in_flight s; trace := trace s |}
          end
      | Rejected status =>
          {| currentState := newState;
             in_flight := in_flight s;
             trace := (trace s ++ catch_block (Rejection status))%list |}
      end
  | awaiting_seek w newState =>
      match seek_reply w with
      | Resolved =>
          {| currentState := newState; in_flight := in_flight s; trace := trace s |}
      | Rejected status =>
          {| currentState := newState;
             in_flight := in_flight s;
             trace := (trace s ++ catch_block (Rejection status))%list |}
      end
  end.

(** The callback of [poses.forEach] for one pose, up to its first [await].
    An exception of the classification rejects the promise of the callback;
    nobody handles it. *)
Definition poseCallback_start (w : world) (minPoseConfidence minPartConfidence : Q)
    (pose : Pose.t) (s : loop) : loop :=
  match classify minPoseConfidence minPartConfidence pose with
  | Normal (Some name) => updateState_start w name s
  | Normal None => s
  | Throw _ => s
  end.

(** [poses.forEach(async ...)]: the callbacks are started one after the
    other, each runs up to its first [await], and [forEach] returns before
    any of them is resumed. *)
Definition forEach (f : Pose.t * world -> loop -> loop) (ps : list (Pose.t * world))
    (s : loop) : loop :=
  fold_left (fun s' p => f p s') ps s.

(** What [poseDetectionFrame] does with the poses of one frame before it
    returns to the event loop. *)
Definition poseDetectionFrame_start (f : frame) (s : loop) : loop :=
  forEach
    (fun p => poseCallback_start (snd p) (minPoseConfidence f) (minPartConfidence f)
                (fst p))
    (poses f) s.

(** The request of the [i]-th suspended call settles and the call goes on. *)
Definition settle (i : nat) (s : loop) : loop :=
  match in_flight s !! i with
  | Some t =>
      updateState_resume t
        {| currentState := currentState s;
           in_flight := delete i (in_flight s);
           trace := trace s |}
  | None => s
  end.

(** A turn of the event loop: an animation frame, or a request of a
    suspended call that settles.  The environment decides the order. *)
Inductive turn :=
| Frame (f : frame)
| Settle (i : nat).

Definition take_turn (t : turn) (s : loop) : loop :=
  match t with
  | Frame f => poseDetectionFrame_start f s
  | Settle i => settle i s
  end.

Definition execute (ts : list turn) (s : loop) : loop :=
  fold_left (fun s' t => take_turn t s') ts s.

(** The oldest suspended call is resumed, [n] times or until none is left. *)
Fixpoint settle_oldest (n : nat) (s : loop) : loop :=
  match n with
  | O => s
  | S n' =>
      match in_flight s with
      | [] => s
      | _ :: _ => settle_oldest n' (settle 0 s)
      end
  end.

(** How many times a suspended call still waits. *)
Definition waits (t : suspended) : nat :=
  match t with
  | awaiting_play _ _ => 2
  | awaiting_seek _ _ => 1
  end.

Definition waiting_turns (s : loop) : nat :=
  list_sum (List.map waits (in_flight s)).

(** Every request settles, in the order the requests were sent. *)
Definition settle_all (s : loop) : loop :=
  settle_oldest (waiting_turns s) s.

(** One frame on a page where no call is under way, followed by the
    settling of all its requests before anything else happens: the held
    state and the events after it.  The frame loop sees no exception. *)
Definition poseDetectionFrame (f : frame) : Action unit :=
  fun cur =>
    let s := settle_all (poseDetectionFrame_start f (fresh cur)) in
    {| result := Normal tt; held := currentState s; emitted := trace s |}.

(** A sequence of frames in which the requests of each frame have settled
    before the next frame arrives.  The other orders are those of
    [execute]. *)
Fixpoint frames (fs : list frame) : Action unit :=
  match fs with
  | [] => Action.ret tt
  | f :: fs' => run poseDetectionFrame f in frames fs'
  end.

(** [await updateState(newState)] repeated, as a caller that awaits every
    call makes them: each call has ended when the next starts. *)
Fixpoint feed (newState : string) (ws : list world) : Action unit :=
  match ws with
  | [] => Action.ret tt
  | w :: ws' => run Action.detach (updateState w newState) in feed newState ws'
  end.

End UpdateState.

(** The state of a fresh page (line 29). *)
Definition initialState : string := "".

(** ** Counting events *)

Definition is_play (e : event) : bool :=
  match e with spotify (play _ _) _ => true | _ => false end.

Definition is_seek (e : event) : bool :=
  match e with spotify (seek _) _ => true | _ => false end.

Definition is_authorize (e : event) : bool :=
  match e with redirect_to_authorize => true | _ => false end.

Definition is_console (e : event) : bool :=
  match e with console_log _ | console_error _ => true | _ => false end.

Definition count (P : event -> bool) (evs : list event) : nat :=
  length (List.filter P evs).

(** Whether anything is written to the console after a rejected call. *)
Fixpoint logs_after_rejection (evs : list event) : bool :=
  match evs with
  | [] => false
  | spotify _ (Rejected _) :: post => existsb is_console post
  | _ :: post => logs_after_rejection post
  end.

(** The names the pose callback passes to [updateState]. *)
Definition classified_names : list string :=
  ["YMCA"; "Baby Shark"; "Disco"; "Thriller"].

(** Every part the classifier looks up is among the keypoints, as in the 17
    keypoints of a PoseNet pose. *)
Definition complete (keypoints : list Keypoint.t) : Prop :=
  forall partName, In partName (arms ++ headParts) ->
    find_part keypoints partName <> None.



(** ** Concrete poses and environments *)

Definition kp (partName : string) (score px py : Q) : Keypoint.t :=
  Keypoint.mk score partName (Position.mk px py).

(** A head whose five parts average to x = 300. *)
Definition head (score : Q) : list Keypoint.t :=
  [kp "nose" score 300 100; kp "leftEye" score 310 90; kp "rightEye" score 290 90;
   kp "leftEar" score 320 95; kp "rightEar" score 280 95].

(** Wrists above elbows above shoulders, one wrist on each side of the head. *)
Definition ymca_arms : list Keypoint.t :=
  [kp "leftShoulder" (7 # 10) 250 200; kp "leftElbow" (7 # 10) 220 150;
   kp "leftWrist" (7 # 10) 200 50;
   kp "rightShoulder" (7 # 10) 350 200; kp "rightElbow" (7 # 10) 380 150;
   kp "rightWrist" (7 # 10) 400 50].

(** Both arms hanging: wrists below elbows below shoulders. *)
Definition resting_arms : list Keypoint.t :=
  [kp "leftShoulder" (7 # 10) 250 200; kp "leftElbow" (7 # 10) 240 300;
   kp "leftWrist" (7 # 10) 235 400;
   kp "rightShoulder" (7 # 10) 350 200; kp "rightElbow" (7 # 10) 360 300;
   kp "rightWrist" (7 # 10) 365 400].

(** Both wrists raised left of the head, the left elbow level with the left
    shoulder. *)
Definition level_elbow_arms : list Keypoint.t :=
  [kp "leftShoulder" (7 # 10) 250 200; kp "leftElbow" (7 # 10) 200 200;
   kp "leftWrist" (7 # 10) 180 120;
   kp "rightShoulder" (7 # 10) 350 200; kp "rightElbow" (7 # 10) 290 180;
   kp "rightWrist" (7 # 10) 260 110].

Definition ymca_pose : Pose.t := Pose.mk (9 # 10) (head (9 # 10) ++ ymca_arms).
Definition resting_pose : Pose.t := Pose.mk (9 # 10) (head (9 # 10) ++ resting_arms).
Definition level_elbow_pose : Pose.t :=
  Pose.mk (9 # 10) (head (9 # 10) ++ level_elbow_arms).

(** The left arm stretched out level: wrist, elbow and shoulder at the same
    height; the right arm raised as in the YMCA pose. *)
Definition level_arm_pose : Pose.t :=
  Pose.mk (9 # 10)
    (head (9 # 10) ++
     [kp "leftShoulder" (7 # 10) 250 200; kp "leftElbow" (7 # 10) 220 200;
      kp "leftWrist" (7 # 10) 200 200;
      kp "rightShoulder" (7 # 10) 350 200; kp "rightElbow" (7 # 10) 380 150;
      kp "rightWrist" (7 # 10) 400 50]).

(** The YMCA pose with the left wrist missing from the keypoints. *)
Definition no_left_wrist_pose : Pose.t :=
  Pose.mk (9 # 10)
    (head (9 # 10) ++
     List.filter (fun k => negb (String.eqb (Keypoint.part k) "leftWrist")) ymca_arms).

(** The YMCA pose with a head nobody is sure of. *)
Definition hidden_head_pose : Pose.t := Pose.mk (9 # 10) (head (2 # 10) ++ ymca_arms).

Definition one_device : option select_element :=
  Some {| options := ["kitchen-speaker"]; selectedIndex := 0 |}.

(** The device list before [updateDeviceList] has filled it, or of an account
    without devices. *)
Definition no_device : option select_element :=
  Some {| options := []; selectedIndex := -1 |}.

Definition world_ok : world :=
  {| devices := one_device; play_reply := Resolved; seek_reply := Resolved |}.

Definition world_play_fails (status : Z) : world :=
  {| devices := one_device; play_reply := Rejected status; seek_reply := Resolved |}.

Definition world_seek_fails (status : Z) : world :=
  {| devices := one_device; play_reply := Resolved; seek_reply := Rejected status |}.

Definition world_no_device : world :=
  {| devices := no_device; play_reply := Resolved; seek_reply := Resolved |}.

(** The thresholds of the GUI for single-pose detection (lines 144-147). *)
Definition single_pose_frame (pose : Pose.t) (w : world) : frame :=
  {| minPoseConfidence := 1 # 10; minPartConfidence := 1 # 2; poses := [(pose, w)] |}.

Definition ymca_frame : frame := single_pose_frame ymca_pose world_ok.

(** The YMCA pose in front of a page whose device list is still empty. *)
Definition no_device_frame : frame := single_pose_frame ymca_pose world_no_device.

(** ** What the geometric tests compare *)

(** The y-coordinates of two parts are both read and differ. *)
Definition apart_y (keypoints : list Keypoint.t) (p1 p2 : string) : Prop :=
  exists a b, getY keypoints p1 = Normal a /\ getY keypoints p2 = Normal b /\
    ((a < b)%Q \/ (b < a)%Q).

(** The y-coordinates of two parts are equal. *)
Definition level_y (keypoints : list Keypoint.t) (p1 p2 : string) : Prop :=
  exists a b, getY keypoints p1 = Normal a /\ getY keypoints p2 = Normal b /\
    (a == b)%Q.

(** The x-coordinate of a part is strictly left or right of the head
    reference. *)
Definition off_head (minPartConfidence : Q) (keypoints : list Keypoint.t)
    (p : string) : Prop :=
  exists a h, getX keypoints p = Normal a /\
    headX minPartConfidence keypoints = Normal h /\
    (js_lt (Fin a) h = true \/ js_gt (Fin a) h = true).

(** The x-coordinate of a part equals the head reference. *)
Definition on_head (minPartConfidence : Q) (keypoints : list Keypoint.t)
    (p : string) : Prop :=
  exists a h, getX keypoints p = Normal a /\
    headX minPartConfidence keypoints = Normal h /\ js_eq (Fin a) h = true.

(** No head part has a confidence above the threshold. *)
Definition head_hidden (minPartConfidence : Q) (keypoints : list Keypoint.t) : Prop :=
  forall p s, In p headParts -> getScore keypoints p = Normal s ->
    ~ (minPartConfidence < s)%Q.

(** A part that is present with a confidence not above the threshold. *)
Definition unsure (minPartConfidence : Q) (keypoints : list Keypoint.t)
    (p : string) : Prop :=
  exists s, getScore keypoints p = Normal s /\ (s <= minPartConfidence)%Q.

(** ** The device list: [updateDeviceList] (lines 692-711) *)

(** An entry of the [devices] array that [getMyDevices] resolves with. *)
Module Device.
Record t := mk { id : string; name : string }.
End Device.

(** An [<option>] child of the device list. *)
Module DeviceOption.
Record t := mk { value : string; text : string }.
End DeviceOption.

(** How the promise of [spotifyApi.getMyDevices()] settles. *)
Inductive devices_reply :=
| DevicesResolved (ds : list Device.t)
| DevicesRejected (status : Z).

(** A run of [updateDeviceList]: its completion, the children of the
    [#devices] element afterwards ([None]: the page has no such element) and
    the events it emitted. *)
Record device_list_run := {
  dl_result : completion unit;
  dl_select : option (list DeviceOption.t);
  dl_emitted : list event
}.

(** The [try] / [catch] of lines 694-701: [deviceResponse] stays [undefined]
    when the call is rejected, and a 401 starts the authorization. *)
Definition deviceResponse (rp : devices_reply) : option (list Device.t) :=
  match rp with
  | DevicesResolved ds => Some ds
  | DevicesRejected _ => None
  end.

Definition devices_catch (rp : devices_reply) : list event :=
  match rp with
  | DevicesResolved _ => []
  | DevicesRejected status =>
      if is_401 (Rejection status) then [redirect_to_authorize] else []
  end.

(** One [<option>] per device: [value] is the id, [text] the name. *)
Definition optionElement (d : Device.t) : DeviceOption.t :=
  DeviceOption.mk (Device.id d) (Device.name d).

Definition updateDeviceList (rp : devices_reply)
    (devicesSelect : option (list DeviceOption.t)) : device_list_run :=
  match deviceResponse rp with
  | None =>                                   (* [deviceResponse.devices] *)
      {| dl_result := Throw TypeError; dl_select := devicesSelect;
         dl_emitted := devices_catch rp |}
  | Some ds =>
      match devicesSelect with
      | None =>                               (* [devicesSelect.innerHTML] on null *)
          {| dl_result := Throw TypeError; dl_select := None;
             dl_emitted := devices_catch rp |}
      | Some _ =>
          {| dl_result := Normal tt;
             dl_select := Some (List.map optionElement ds);
             dl_emitted := devices_catch rp |}
      end
  end.

(** The device list as [getSelectedDevice] reads it: the values of the
    options, with the index the browser or the user has selected. *)
Definition select_of (children : option (list DeviceOption.t)) (index : Z)
  : option select_element :=
  match children with
  | Some opts =>
      Some {| options := List.map DeviceOption.value opts; selectedIndex := index |}
  | None => None
  end.

(** The environment of a call of [updateState] that follows a run of
    [updateDeviceList]. *)
Definition world_after (r : device_list_run) (index : Z) (play_rp seek_rp : reply)
  : world :=
  {| devices := select_of (dl_select r) index;
     play_reply := play_rp; seek_reply := seek_rp |}.

(** ** The script of the page (lines 666-690) *)

(** [s.indexOf(c)], counted from [i]: -1 when [c] does not occur. *)
Fixpoint indexOf_from (c : Ascii.ascii) (s : string) (i : Z) : Z :=
  match s with
  | EmptyString => (-1)%Z
  | String a s' => if Ascii.eqb a c then i else indexOf_from c s' (i + 1)%Z
  end.

Definition indexOf (c : Ascii.ascii) (s : string) : Z := indexOf_from c s 0.

Fixpoint string_drop (n : nat) (s : string) : string :=
  match n, s with
  | O, _ => s
  | S n', String _ s' => string_drop n' s'
  | S _, EmptyString => EmptyString
  end.

(** [s.substr(start)]: a negative [start] counts from the end. *)
Definition substr (s : string) (start : Z) : string :=
  if (start <? 0)%Z
  then string_drop (Z.to_nat (Z.max (Z.of_nat (String.length s) + start) 0)) s
  else string_drop (Z.to_nat start) s.

(** Lines 670-671: the text after the first "#" of the address. *)
Definition paramString (href : string) : string :=
  substr href (indexOf "#"%char href + 1)%Z.

(** What the script leaves behind: the session storage, the token of the
    Spotify client and the events. *)
Record page_load := {
  pl_sessionStorage : gmap string string;
  pl_accessToken : option string;
  pl_emitted : list event
}.

Section PageScript.

(** [new URLSearchParams(text)], as the list of its name/value pairs. *)
Variable URLSearchParams : string -> list (string * string).

(** [urlParams.get(key)]: the first value of that name, [None] for [null];
    [urlParams.has(key)] holds exactly when it is not [null]. *)
Definition params_get (urlParams : list (string * string)) (key : string)
  : option string :=
  match List.find (fun p => String.eqb (fst p) key) urlParams with
  | Some p => Some (snd p)
  | None => None
  end.

(** Lines 673-676 *)
Definition storeToken (href : string) (sessionStorage : gmap string string)
  : gmap string string :=
  match params_get (URLSearchParams (paramString href)) "access_token" with
  | Some token => <["spotify_access_code" := token]> sessionStorage
  | None => sessionStorage
  end.

(** Lines 666-690 *)
Definition loadPage (href : string) (sessionStorage : gmap string string)
  : page_load :=
  let storage := storeToken href sessionStorage in
  match storage !! "spotify_access_code" with
  | None =>
      {| pl_sessionStorage := storage; pl_accessToken := None;
         pl_emitted := [console_log [href]; redirect_to_authorize] |}
  | Some accessToken =>
      {| pl_sessionStorage := storage; pl_accessToken := Some accessToken;
         pl_emitted := [console_log [href]] |}
  end.

End PageScript.

(** The pieces of [s] between the occurrences of [c]. *)
Fixpoint split_on (c : Ascii.ascii) (s : string) : list string :=
  match s with
  | EmptyString => [EmptyString]
  | String a s' =>
      if Ascii.eqb a c then EmptyString :: split_on c s'
      else match split_on c s' with
           | piece :: pieces => String a piece :: pieces
           | [] => [String a EmptyString]
           end
  end.

(** A piece "name=value": the text before its first "=" and the text after
    it; a piece without "=" is a name with the empty value. *)
Definition pair_of (s : string) : string * string :=
  let i := indexOf "="%char s in
  if (i <? 0)%Z then (s, EmptyString)
  else (String.substring 0 (Z.to_nat i) s, substr s (i + 1)%Z).

(** A stand-in for [new URLSearchParams(text)] in the examples.  Like
    [URLSearchParams] it drops one leading "?", splits the text at "&",
    skips the empty pieces and splits each piece at its first "="; it does
    not decode "+" or "%"-escapes, so it agrees with [URLSearchParams] on
    texts that contain neither. *)
Definition plain_params (text : string) : list (string * string) :=
  let query := match text with
               | String "?"%char rest => rest
               | _ => text
               end in
  List.map pair_of
    (List.filter (fun s => negb (String.eqb s EmptyString)) (split_on "&"%char query)).

(** ** Reloading the network at the start of a frame (lines 366-442) *)

(** The argument of [posenet.load]; a key that is not passed is [None]. *)
Module Net.
Record config := mk {
  architecture : string;
  outputStride : Q;
  inputResolution : Q;
  multiplier : Q;
  quantBytes : option Q
}.
End Net.

(** The part of [guiState] that [poseDetectionFrame] reads and writes.  A
    network is identified by the configuration it was loaded with; the
    [changeTo...] members are [None] when they are [null] or absent, and
    otherwise the number that the unary plus of the source makes of the
    choice (the choices of the GUI are never 0). *)
Module Gui.
Record t := mk {
  net : Net.config;
  architecture : string;
  outputStride : Q;
  inputResolution : Q;
  multiplier : Q;
  quantBytes : Q;
  changeToArchitecture : option string;
  changeToMultiplier : option Q;
  changeToOutputStride : option Q;
  changeToInputResolution : option Q;
  changeToQuantBytes : option Q
}.
End Gui.

Inductive gui_event :=
| net_dispose (n : Net.config)           (* [guiState.net.dispose()] *)
| toggleLoadingUI (showLoadingUI : bool)
| posenet_load (cfg : Net.config).

(** The value of a [changeTo...] member when it is truthy. *)
Definition truthy_string (v : option string) : option string :=
  match v with
  | Some s => if String.eqb s "" then None else Some s
  | None => None
  end.

Definition truthy_number (v : option Q) : option Q :=
  match v with
  | Some q => if Qeq_bool q 0 then None else Some q
  | None => None
  end.

(** A run of the reloading code: [guiState] afterwards, the events, and
    whether it ran to its end ([false]: a [posenet.load] was rejected and the
    exception left [poseDetectionFrame]). *)
Record reload_run := {
  gui : Gui.t;
  gui_emitted : list gui_event;
  completed : bool
}.

Section Reload.

(** Whether [posenet.load] resolves for a configuration. *)
Variable load_resolves : Net.config -> bool.

(** The body shared by the five blocks: dispose, show the loading UI, load,
    commit to [guiState], hide the loading UI. *)
Definition reload (cfg : Net.config) (commit : Gui.t -> Gui.t) (g : Gui.t) : reload_run :=
  if load_resolves cfg
  then {| gui := commit g;
          gui_emitted := [net_dispose (Gui.net g); toggleLoadingUI true;
                          posenet_load cfg; toggleLoadingUI false];
          completed := true |}
  else {| gui := g;
          gui_emitted := [net_dispose (Gui.net g); toggleLoadingUI true;
                          posenet_load cfg];
          completed := false |}.

Definition skip (g : Gui.t) : reload_run :=
  {| gui := g; gui_emitted := []; completed := true |}.

(** Sequencing of two blocks. *)
Definition and_then (first second : Gui.t -> reload_run) (g : Gui.t) : reload_run :=
  let r1 := first g in
  if completed r1
  then let r2 := second (gui r1) in
       {| gui := gui r2; gui_emitted := gui_emitted r1 ++ gui_emitted r2;
          completed := completed r2 |}
  else r1.

(** Lines 366-379 *)
Definition reloadArchitecture (g : Gui.t) : reload_run :=
  match truthy_string (Gui.changeToArchitecture g) with
  | Some architecture =>
      let cfg := Net.mk architecture (Gui.outputStride g) (Gui.inputResolution g)
                   (Gui.multiplier g) None in
      reload cfg
        (fun g => Gui.mk cfg architecture (Gui.outputStride g) (Gui.inputResolution g)
                    (Gui.multiplier g) (Gui.quantBytes g)
                    None (Gui.changeToMultiplier g) (Gui.changeToOutputStride g)
                    (Gui.changeToInputResolution g) (Gui.changeToQuantBytes g))
        g
  | None => skip g
  end.

(** Lines 381-394 *)
Definition reloadMultiplier (g : Gui.t) : reload_run :=
  match truthy_number (Gui.changeToMultiplier g) with
  | Some multiplier =>
      let cfg := Net.mk (Gui.architecture g) (Gui.outputStride g) (Gui.inputResolution g)
                   multiplier (Some (Gui.quantBytes g)) in
      reload cfg
        (fun g => Gui.mk cfg (Gui.architecture g) (Gui.outputStride g)
                    (Gui.inputResolution g) multiplier (Gui.quantBytes g)
                    (Gui.changeToArchitecture g) None (Gui.changeToOutputStride g)
                    (Gui.changeToInputResolution g) (Gui.changeToQuantBytes g))
        g
  | None => skip g
  end.

(** Lines 396-410 *)
Definition reloadOutputStride (g : Gui.t) : reload_run :=
  match truthy_number (Gui.changeToOutputStride g) with
  | Some outputStride =>
      let cfg := Net.mk (Gui.architecture g) outputStride (Gui.inputResolution g)
                   (Gui.multiplier g) (Some (Gui.quantBytes g)) in
      reload cfg
        (fun g => Gui.mk cfg (Gui.architecture g) outputStride
                    (Gui.inputResolution g) (Gui.multiplier g) (Gui.quantBytes g)
                    (Gui.changeToArchitecture g) (Gui.changeToMultiplier g) None
                    (Gui.changeToInputResolution g) (Gui.changeToQuantBytes g))
        g
  | None => skip g
  end.

(** Lines 412-426 *)
Definition reloadInputResolution (g : Gui.t) : reload_run :=
  match truthy_number (Gui.changeToInputResolution g) with
  | Some inputResolution =>
      let cfg := Net.mk (Gui.architecture g) (Gui.outputStride g) inputResolution
                   (Gui.multiplier g) (Some (Gui.quantBytes g)) in
      reload cfg
        (fun g => Gui.mk cfg (Gui.architecture g) (Gui.outputStride g)
                    inputResolution (Gui.multiplier g) (Gui.quantBytes g)
                    (Gui.changeToArchitecture g) (Gui.changeToMultiplier g)
                    (Gui.changeToOutputStride g) None (Gui.changeToQuantBytes g))
        g
  | None => skip g
  end.

(** Lines 428-442 *)
Definition reloadQuantBytes (g : Gui.t) : reload_run :=
  match truthy_number (Gui.changeToQuantBytes g) with
  | Some quantBytes =>
      let cfg := Net.mk (Gui.architecture g) (Gui.outputStride g) (Gui.inputResolution g)
                   (Gui.multiplier g) (Some quantBytes) in
      reload cfg
        (fun g => Gui.mk cfg (Gui.architecture g) (Gui.outputStride g)
                    (Gui.inputResolution g) (Gui.multiplier g) quantBytes
                    (Gui.changeToArchitecture g) (Gui.changeToMultiplier g)
                    (Gui.changeToOutputStride g) (Gui.changeToInputResolution g) None)
        g
  | None => skip g
  end.

(** Lines 366-442, in the order of the source. *)
Definition reloadNetwork : Gui.t -> reload_run :=
  and_then reloadArchitecture
    (and_then reloadMultiplier
       (and_then reloadOutputStride
          (and_then reloadInputResolution reloadQuantBytes))).

End Reload.

(** The configuration that [guiState] records. *)
Definition recorded (g : Gui.t) : Net.config :=
  Net.mk (Gui.architecture g) (Gui.outputStride g) (Gui.inputResolution g)
    (Gui.multiplier g) (Some (Gui.quantBytes g)).

(** The number of changes that are waiting in [guiState]. *)
Definition waiting {A} (v : option A) : nat :=
  match v with
  | Some _ => 1
  | None => 0
  end.

Definition pending (g : Gui.t) : nat :=
  waiting (truthy_string (Gui.changeToArchitecture g)) +
  waiting (truthy_number (Gui.changeToMultiplier g)) +
  waiting (truthy_number (Gui.changeToOutputStride g)) +
  waiting (truthy_number (Gui.changeToInputResolution g)) +
  waiting (truthy_number (Gui.changeToQuantBytes g)).

(** The loading UI as the events leave it: the argument of the last
    [toggleLoadingUI], [None] when there was none. *)
Fixpoint loadingUI (evs : list gui_event) (shown : option bool) : option bool :=
  match evs with
  | [] => shown
  | toggleLoadingUI b :: evs' => loadingUI evs' (Some b)
  | _ :: evs' => loadingUI evs' shown
  end.

(** The networks disposed of, and the configurations loaded, in order. *)
Fixpoint disposals (evs : list gui_event) : list Net.config :=
  match evs with
  | [] => []
  | net_dispose n :: evs' => n :: disposals evs'
  | _ :: evs' => disposals evs'
  end.

Fixpoint loads (evs : list gui_event) : list Net.config :=
  match evs with
  | [] => []
  | posenet_load cfg :: evs' => cfg :: loads evs'
  | _ :: evs' => loads evs'
  end.



(** The GUI after [setupGui] on a desktop browser (lines 125-161), with the
    default MobileNet loaded by [bindPage] (lines 640-646). *)
Definition default_gui : Gui.t :=
  let cfg := Net.mk "MobileNetV1" 16 500 (75 # 100) (Some 2%Q) in
  Gui.mk cfg "MobileNetV1" 16 500 (75 # 100) 2 None None None None None.

(** The waiting changes one by one (1 when waiting), for the facts about the
    reloading code. *)
Definition waitingArchitecture (g : Gui.t) : nat :=
  waiting (truthy_string (Gui.changeToArchitecture g)).
Definition waitingMultiplier (g : Gui.t) : nat :=
  waiting (truthy_number (Gui.changeToMultiplier g)).
Definition waitingOutputStride (g : Gui.t) : nat :=
  waiting (truthy_number (Gui.changeToOutputStride g)).
Definition waitingInputResolution (g : Gui.t) : nat :=
  waiting (truthy_number (Gui.changeToInputResolution g)).
Definition waitingQuantBytes (g : Gui.t) : nat :=
  waiting (truthy_number (Gui.changeToQuantBytes g)).

(** No change starts waiting between [g] and [g']. *)
Definition none_added (g g' : Gui.t) : Prop :=
  (waitingArchitecture g' <= waitingArchitecture g)%nat /\
  (waitingMultiplier g' <= waitingMultiplier g)%nat /\
  (waitingOutputStride g' <= waitingOutputStride g)%nat /\
  (waitingInputResolution g' <= waitingInputResolution g)%nat /\
  (waitingQuantBytes g' <= waitingQuantBytes g)%nat.

(** What a run [r] of some of the blocks from [g] guarantees; [cleared] is
    what the blocks leave behind when they run to their end, [late] tells
    whether the architecture block is not among them. *)
Definition reload_spec (load : Net.config -> bool) (cleared : Gui.t -> Prop)
    (late : bool) (g : Gui.t) (r : reload_run) : Prop :=
  (completed r = true ->
     none_added g (gui r) /\ cleared (gui r) /\
     length (loads (gui_emitted r)) + pending (gui r) = pending g /\
     (disposals (gui_emitted r) ++ [Gui.net (gui r)])%list =
       Gui.net g :: loads (gui_emitted r) /\
     (forall shown, loadingUI (gui_emitted r) shown =
        match loads (gui_emitted r) with [] => shown | _ :: _ => Some false end) /\
     (loads (gui_emitted r) = [] -> gui r = g) /\
     (late = true ->
        (loads (gui_emitted r) <> [] -> Gui.net (gui r) = recorded (gui r)))) /\
  (completed r = false ->
     exists cfg before,
       load cfg = false /\
       disposals (gui_emitted r) = (before ++ [Gui.net (gui r)])%list /\
       (disposals (gui_emitted r) ++ [cfg])%list = Gui.net g :: loads (gui_emitted r) /\
       (forall shown, loadingUI (gui_emitted r) shown = Some true) /\
       (0 < pending (gui r))%nat).

(** ** Events that come from the catalog *)

(** A request whose track or position is that of a song of a classified
    gesture; anything but a "Could not find the song" report otherwise. *)
Definition catalog_event (e : event) : Prop :=
  match e with
  | console_error _ => False
  | spotify (play _ uris) _ =>
      exists g song, In g classified_names /\ songLookup !! g = Some song /\
        uris = [Some (Song.uri song)]
  | spotify (seek position_ms) _ =>
      exists g song, In g classified_names /\ songLookup !! g = Some song /\
        position_ms = Song.position song /\ (0 < position_ms)%Q
  | _ => True
  end.

(** ** What the turns of the event loop preserve *)

Definition newState_of (t : suspended) : string :=
  match t with
  | awaiting_play _ newState => newState
  | awaiting_seek _ newState => newState
  end.

(** [currentState] is [cur] or a gesture name, every suspended call carries
    a gesture name, and every event comes from the catalog. *)
Definition steady (cur : string) (s : loop) : Prop :=
  (currentState s = cur \/ In (currentState s) classified_names) /\
  Forall (fun t => In (newState_of t) classified_names) (in_flight s) /\
  Forall catalog_event (trace s).

(** ** Concrete device lists and GUI states *)

Definition two_devices : list Device.t :=
  [Device.mk "kitchen-speaker" "Kitchen"; Device.mk "laptop" "Laptop"].


(** The GUI after the user picked ResNet50: [updateGui] has put the ResNet
    defaults into [guiState] (lines 278-285) before the change is recorded. *)
Definition architecture_change_gui : Gui.t :=
  Gui.mk (Gui.net default_gui) "MobileNetV1" 32 250 1 2
    (Some "ResNet50") None None None None.

(** ** Tactics *)

(** Splits a goal about [updateState w name cur] into the paths through the
    function. *)
Ltac updateState_paths w name cur :=
  unfold updateState, authorize, is_401, Action.bind, Action.try_catch,
    Action.lift, Action.emit, Action.call, Action.ret, Action.get_currentState,
    Action.set_currentState;
  cbn [result held emitted];
  destruct (String.eqb cur name) eqn:Hsame; cbn [result held emitted app];
  [| destruct (getSelectedDevice w) as [currentDevice | thrown] eqn:Hdevice;
     cbn [result held emitted app];
     [ destruct (in_songLookup name) eqn:Hin; cbn [result held emitted app];
       [ destruct (play_reply w) as [| play_status] eqn:Hplay;
         cbn [result held emitted app ex_status];
         [ destruct (member_positive_position (get_songLookup name)) as [pos |] eqn:Hpos;
           cbn [result held emitted app ex_status];
           [ destruct (seek_reply w) as [| seek_status] eqn:Hseek;
             cbn [result held emitted app ex_status];
             [| destruct (seek_status =? 401)%Z eqn:Hseek401;
                cbn [result held emitted app] ]
           | ]
         | destruct (play_status =? 401)%Z eqn:Hplay401;
           cbn [result held emitted app] ]
       | ]
     | ] ].

(** Decomposes membership of an event in an explicit list of events. *)
Ltac solve_in_events :=
  repeat match goal with
         | H : In _ (_ :: _) |- _ => destruct H
         | H : In _ [] |- _ => destruct H
         | H : _ \/ _ |- _ => destruct H
         | H : False |- _ => destruct H
         | H : @eq event _ _ |- _ => first [discriminate H | injection H as ? ?; subst]
         | H : @eq request _ _ |- _ => first [discriminate H | injection H as ?; subst]
         end.

(** Proves that one block of the reloading code meets [reload_spec], by the
    cases of its change waiting or not and of its load resolving or not. *)
Ltac block_spec load g :=
  destruct g as [net0 arch stride res mult quant cArch cMult cStride cRes cQuant];
  unfold reload_spec, reloadArchitecture, reloadMultiplier, reloadOutputStride,
    reloadInputResolution, reloadQuantBytes, reload, skip, none_added, pending,
    recorded, waitingArchitecture, waitingMultiplier, waitingOutputStride,
    waitingInputResolution, waitingQuantBytes;
  cbn [Gui.net Gui.architecture Gui.outputStride Gui.inputResolution Gui.multiplier
       Gui.quantBytes Gui.changeToArchitecture Gui.changeToMultiplier
       Gui.changeToOutputStride Gui.changeToInputResolution Gui.changeToQuantBytes];
  match goal with
  | |- context [match ?t with Some _ => _ | None => _ end] =>
      destruct t eqn:?
  end;
  [ match goal with
    | |- context [load ?cfg] => destruct (load cfg) eqn:?
    end | ];
  cbn [gui gui_emitted completed loads disposals loadingUI length app
       Gui.net Gui.architecture Gui.outputStride Gui.inputResolution Gui.multiplier
       Gui.quantBytes Gui.changeToArchitecture Gui.changeToMultiplier
       Gui.changeToOutputStride Gui.changeToInputResolution Gui.changeToQuantBytes
       truthy_string truthy_number waiting];
  repeat match goal with
         | H : truthy_string _ = _ |- _ => rewrite H
         | H : truthy_number _ = _ |- _ => rewrite H
         end;
  cbn [waiting];
  (split; intros Hdone; [try discriminate Hdone | try discriminate Hdone]);
  try (eexists _, []; split; [eassumption |];
       split; [reflexivity |]; split; [reflexivity |]; split; [reflexivity |]; lia);
  repeat split; try lia; try reflexivity; try discriminate;
  try (intros; congruence).

(** ** Sanity checks of the embedding *)

Example ymca_pose_is_YMCA :
  classify (1 # 10) (1 # 2) ymca_pose = Normal (Some "YMCA").
Proof. vm_compute. reflexivity. Qed.

Example resting_pose_is_none :
  classify (1 # 10) (1 # 2) resting_pose = Normal None.
Proof. vm_compute. reflexivity. Qed.

Example head_of_ymca_pose :
  headX (1 # 2) (Pose.keypoints ymca_pose) = Normal (Fin (1500 # 5)).
Proof. vm_compute. reflexivity. Qed.

Example first_YMCA_plays_and_seeks :
  updateState world_ok "YMCA" initialState =
  {| result := Normal tt; held := "YMCA";
     emitted :=
       [console_log ["Updating State:"; "YMCA"];
        spotify (play "kitchen-speaker" [Some "spotify:track:7Cp69rNBwU0gaFT8zxExlE"])
          Resolved;
        spotify (seek 58000) Resolved] |}.
Proof. vm_compute. reflexivity. Qed.

Example Disco_plays_without_seek :
  emitted (updateState world_ok "Disco" initialState) =
  [console_log ["Updating State:"; "Disco"];
   spotify (play "kitchen-speaker" [Some "spotify:track:7qK3JFriCqLorQivsJYG2X"])
     Resolved].
Proof. vm_compute. reflexivity. Qed.

(** The transition sequence of the spec's section 8, fed as names. *)
Example two_transitions :
  count is_play
    (emitted ((let* _ := updateState world_ok "YMCA" in
               let* _ := updateState world_ok "YMCA" in
               let* _ := updateState world_ok "Disco" in
               let* _ := updateState world_ok "Disco" in
               updateState world_ok "Disco")%A initialState)) = 2%nat.
Proof. vm_compute. reflexivity. Qed.

(** ** Facts about completions *)

Lemma Qltb_lt (a b : Q) : Qltb a b = true <-> (a < b)%Q.
Proof.
  unfold Qltb. rewrite negb_true_iff. split.
  - intros H. apply Qnot_le_lt. intros Hle.
    apply Qle_bool_iff in Hle. congruence.
  - intros H. destruct (Qle_bool b a) eqn:E; [| reflexivity].
    apply Qle_bool_iff in E. exfalso. exact (Qlt_not_le _ _ H E).
Qed.

Lemma Qltb_false_eq (a b : Q) : (a == b)%Q -> Qltb a b = false /\ Qltb b a = false.
Proof.
  intros H. split; apply not_true_is_false; rewrite Qltb_lt; intros Hlt;
    rewrite H in Hlt; exact (Qlt_irrefl _ Hlt).
Qed.

Lemma js_lt_false_eq (a b : number) :
  js_eq a b = true -> js_lt a b = false /\ js_gt a b = false.
Proof.
  unfold js_gt. destruct a, b; simpl; try discriminate; auto.
  intros H. apply Qeq_bool_iff in H. apply Qltb_false_eq. exact H.
Qed.

Lemma js_lt_NaN_r (a : number) : js_lt a NaN = false /\ js_gt a NaN = false.
Proof. destruct a; auto. Qed.

Lemma bind_Normal {A B} (c : completion A) (f : A -> completion B) (b : B) :
  Completion.bind c f = Normal b -> exists a, c = Normal a /\ f a = Normal b.
Proof. destruct c; simpl; [eauto | discriminate]. Qed.

Lemma and_true (a b : completion bool) :
  (a &&& b)%C = Normal true -> a = Normal true /\ b = Normal true.
Proof.
  unfold Completion.and. intros H. apply bind_Normal in H as ([] & -> & H).
  - auto.
  - discriminate.
Qed.

Lemma or_true (a b : completion bool) :
  (a ||| b)%C = Normal true -> a = Normal true \/ b = Normal true.
Proof.
  unfold Completion.or. intros H. apply bind_Normal in H as ([] & -> & H); auto.
Qed.

Lemma and_false_l (a b : completion bool) :
  a = Normal false -> (a &&& b)%C = Normal false.
Proof. intros ->. reflexivity. Qed.

Lemma map_total {A B} (f : A -> completion B) (xs : list A) :
  (forall a, In a xs -> exists b, f a = Normal b) ->
  exists bs, Completion.map f xs = Normal bs /\
    forall a b, In a xs -> f a = Normal b -> In b bs.
Proof.
  induction xs as [| a xs IH]; intros H.
  - exists []. split; [reflexivity | intros ? ? []].
  - destruct (H a (or_introl eq_refl)) as [b Hb].
    destruct IH as (bs & Hbs & Hin); [intros; apply H; right; assumption |].
    exists (b :: bs). split.
    + simpl. rewrite Hb. simpl. rewrite Hbs. reflexivity.
    + intros a' b' [<- | Ha'] Hf.
      * left. congruence.
      * right. eauto.
Qed.

Lemma filter_total {A} (f : A -> completion bool) (xs : list A) :
  (forall a, In a xs -> exists b, f a = Normal b) ->
  exists ys, Completion.filter f xs = Normal ys /\ incl ys xs.
Proof.
  induction xs as [| a xs IH]; intros H.
  - exists []. split; [reflexivity | intros ? []].
  - destruct (H a (or_introl eq_refl)) as [b Hb].
    destruct IH as (ys & Hys & Hincl); [intros; apply H; right; assumption |].
    exists (if b then a :: ys else ys). split.
    + simpl. rewrite Hb. simpl. rewrite Hys. reflexivity.
    + destruct b; intros z Hz; simpl in *; intuition.
Qed.

Lemma filter_none {A} (f : A -> completion bool) (xs ys : list A) :
  (forall a, In a xs -> f a <> Normal true) ->
  Completion.filter f xs = Normal ys -> ys = [].
Proof.
  revert ys. induction xs as [| a xs IH]; intros ys H Hf.
  - simpl in Hf. congruence.
  - simpl in Hf. apply bind_Normal in Hf as (keep & Hk & Hf).
    apply bind_Normal in Hf as (zs & Hzs & Hf).
    destruct keep.
    + exfalso. exact (H a (or_introl eq_refl) Hk).
    + apply IH in Hzs; [congruence |]. intros; apply H; right; assumption.
Qed.

(** ** Facts about the helpers of the pose callback *)

Lemma mbind_Normal {A B} (c : completion A) (f : A -> completion B) (b : B) :
  (c ≫= f) = Normal b -> exists a, c = Normal a /\ f a = Normal b.
Proof. apply bind_Normal. Qed.

Lemma lt_true (a b : completion Q) :
  lt a b = Normal true ->
  exists va vb, a = Normal va /\ b = Normal vb /\ (va < vb)%Q.
Proof.
  unfold lt. intros H.
  apply mbind_Normal in H as (va & -> & H).
  apply mbind_Normal in H as (vb & -> & H).
  exists va, vb. repeat split. apply Qltb_lt. congruence.
Qed.

Lemma gt_true (a b : completion Q) :
  gt a b = Normal true ->
  exists va vb, a = Normal va /\ b = Normal vb /\ (vb < va)%Q.
Proof.
  unfold gt. intros H.
  apply mbind_Normal in H as (va & -> & H).
  apply mbind_Normal in H as (vb & -> & H).
  exists va, vb. repeat split. apply Qltb_lt. congruence.
Qed.

Lemma lt_head_true (a : completion Q) (h : completion number) :
  lt_head a h = Normal true ->
  exists va vh, a = Normal va /\ h = Normal vh /\ js_lt (Fin va) vh = true.
Proof.
  unfold lt_head. intros H.
  apply mbind_Normal in H as (va & -> & H).
  apply mbind_Normal in H as (vh & -> & H).
  exists va, vh. repeat split. congruence.
Qed.

Lemma gt_head_true (a : completion Q) (h : completion number) :
  gt_head a h = Normal true ->
  exists va vh, a = Normal va /\ h = Normal vh /\ js_gt (Fin va) vh = true.
Proof.
  unfold gt_head. intros H.
  apply mbind_Normal in H as (va & -> & H).
  apply mbind_Normal in H as (vh & -> & H).
  exists va, vh. repeat split. congruence.
Qed.

Section HelperFacts.

Variable minPart : Q.
Variable kps : list Keypoint.t.

Lemma lt_apart p1 p2 :
  lt (getY kps p1) (getY kps p2) = Normal true -> apart_y kps p1 p2.
Proof. intros H. apply lt_true in H as (a & b & ? & ? & ?). exists a, b. auto. Qed.

Lemma gt_apart p1 p2 :
  gt (getY kps p1) (getY kps p2) = Normal true -> apart_y kps p1 p2.
Proof. intros H. apply gt_true in H as (a & b & ? & ? & ?). exists a, b. auto. Qed.

Lemma lt_head_off p :
  lt_head (getX kps p) (headX minPart kps) = Normal true -> off_head minPart kps p.
Proof.
  intros H. apply lt_head_true in H as (a & h & ? & ? & ?). exists a, h. auto.
Qed.

Lemma gt_head_off p :
  gt_head (getX kps p) (headX minPart kps) = Normal true -> off_head minPart kps p.
Proof.
  intros H. apply gt_head_true in H as (a & h & ? & ? & ?). exists a, h. auto.
Qed.

Lemma wristsAstride_off :
  wristsAstride minPart kps = Normal true ->
  off_head minPart kps "leftWrist" /\ off_head minPart kps "rightWrist".
Proof.
  unfold wristsAstride. intros H.
  apply or_true in H as [H | H]; apply and_true in H as [H1 H2];
    eauto using lt_head_off, gt_head_off.
Qed.

Lemma wristsAside_off :
  wristsAside minPart kps = Normal true ->
  off_head minPart kps "leftWrist" /\ off_head minPart kps "rightWrist".
Proof.
  unfold wristsAside. intros H.
  apply or_true in H as [H | H]; apply and_true in H as [H1 H2];
    eauto using lt_head_off, gt_head_off.
Qed.

Lemma oneArmUp_apart :
  oneArmUp kps = Normal true ->
  apart_y kps "leftWrist" "leftElbow" /\ apart_y kps "leftElbow" "leftShoulder" /\
  apart_y kps "rightWrist" "rightElbow" /\ apart_y kps "rightElbow" "rightShoulder".
Proof.
  unfold oneArmUp. intros H.
  apply or_true in H as [H | H];
    apply and_true in H as [H H4]; apply and_true in H as [H H3];
    apply and_true in H as [H1 H2];
    repeat split; auto using lt_apart, gt_apart.
Qed.

(** What each branch of the chain needs. *)
Lemma isYMCA_needs :
  isYMCA minPart kps = Normal true ->
  (apart_y kps "leftWrist" "leftElbow" /\ apart_y kps "rightWrist" "rightElbow") /\
  (apart_y kps "leftElbow" "leftShoulder" /\ apart_y kps "rightElbow" "rightShoulder") /\
  (off_head minPart kps "leftWrist" /\ off_head minPart kps "rightWrist").
Proof.
  unfold isYMCA. intros H.
  apply and_true in H as [H Hx]. apply and_true in H as [_ H].
  apply and_true in H as [H H4]; apply and_true in H as [H H3];
    apply and_true in H as [H1 H2].
  apply wristsAstride_off in Hx. repeat split; auto using lt_apart; tauto.
Qed.

Lemma isBabyShark_needs :
  isBabyShark minPart kps = Normal true ->
  (apart_y kps "leftWrist" "leftElbow" /\ apart_y kps "rightWrist" "rightElbow") /\
  (apart_y kps "leftElbow" "leftShoulder" /\ apart_y kps "rightElbow" "rightShoulder") /\
  (off_head minPart kps "leftWrist" /\ off_head minPart kps "rightWrist").
Proof.
  unfold isBabyShark. intros H.
  apply and_true in H as [H Hx]. apply and_true in H as [_ H].
  apply oneArmUp_apart in H. apply wristsAside_off in Hx. tauto.
Qed.

Lemma isDisco_needs :
  isDisco minPart kps = Normal true ->
  (apart_y kps "leftWrist" "leftElbow" /\ apart_y kps "rightWrist" "rightElbow") /\
  (apart_y kps "leftElbow" "leftShoulder" /\ apart_y kps "rightElbow" "rightShoulder") /\
  (off_head minPart kps "leftWrist" /\ off_head minPart kps "rightWrist").
Proof.
  unfold isDisco. intros H.
  apply and_true in H as [H Hx]. apply and_true in H as [_ H].
  apply oneArmUp_apart in H. apply wristsAstride_off in Hx. tauto.
Qed.

Lemma isThriller_needs :
  isThriller minPart kps = Normal true ->
  (apart_y kps "leftWrist" "leftElbow" /\ apart_y kps "rightWrist" "rightElbow") /\
  (off_head minPart kps "leftWrist" /\ off_head minPart kps "rightWrist").
Proof.
  unfold isThriller. intros H.
  apply and_true in H as [H Hx]. apply and_true in H as [_ H].
  apply and_true in H as [H1 H2].
  apply wristsAside_off in Hx. repeat split; auto using lt_apart; tauto.
Qed.

(** The chain returns a name only through the branch of that name. *)
Lemma matchedGesture_Some g :
  matchedGesture minPart kps = Normal (Some g) ->
  (g = "YMCA" /\ isYMCA minPart kps = Normal true) \/
  (g = "Baby Shark" /\ isBabyShark minPart kps = Normal true) \/
  (g = "Disco" /\ isDisco minPart kps = Normal true) \/
  (g = "Thriller" /\ isThriller minPart kps = Normal true).
Proof.
  unfold matchedGesture. intros H.
  apply mbind_Normal in H as ([] & -> & H); [left; split; congruence |].
  apply mbind_Normal in H as ([] & -> & H); [right; left; split; congruence |].
  apply mbind_Normal in H as ([] & -> & H); [right; right; left; split; congruence |].
  apply mbind_Normal in H as ([] & -> & H); [right; right; right; split; congruence |].
  discriminate.
Qed.

Lemma matchedGesture_needs g :
  matchedGesture minPart kps = Normal (Some g) ->
  In g classified_names /\
  (apart_y kps "leftWrist" "leftElbow" /\ apart_y kps "rightWrist" "rightElbow") /\
  (off_head minPart kps "leftWrist" /\ off_head minPart kps "rightWrist").
Proof.
  intros H. apply matchedGesture_Some in H as [[-> H] | [[-> H] | [[-> H] | [-> H]]]].
  - apply isYMCA_needs in H. simpl. tauto.
  - apply isBabyShark_needs in H. simpl. tauto.
  - apply isDisco_needs in H. simpl. tauto.
  - apply isThriller_needs in H. simpl. tauto.
Qed.

Lemma apart_not_level p1 p2 : apart_y kps p1 p2 -> level_y kps p1 p2 -> False.
Proof.
  intros (a & b & Ha & Hb & Hab) (a' & b' & Ha' & Hb' & Heq).
  rewrite Ha in Ha'. rewrite Hb in Hb'.
  injection Ha' as <-. injection Hb' as <-.
  destruct Hab as [Hlt | Hlt]; rewrite Heq in Hlt; exact (Qlt_irrefl _ Hlt).
Qed.

Lemma off_not_on p : off_head minPart kps p -> on_head minPart kps p -> False.
Proof.
  intros (a & h & Ha & Hh & Hoff) (a' & h' & Ha' & Hh' & Heq).
  rewrite Ha in Ha'. rewrite Hh in Hh'.
  injection Ha' as <-. injection Hh' as <-.
  apply js_lt_false_eq in Heq as [H1 H2]. destruct Hoff; congruence.
Qed.

(** With no confident head part the average is taken over the empty array. *)
Lemma hidden_head_parts parts :
  head_hidden minPart kps ->
  confidentHeadParts minPart kps = Normal parts -> parts = [].
Proof.
  intros Hh. unfold confidentHeadParts. apply filter_none.
  intros p Hp Hk. apply mbind_Normal in Hk as (s & Hs & Hk).
  injection Hk as Hk. apply Qltb_lt in Hk. exact (Hh p s Hp Hs Hk).
Qed.

Lemma hidden_headX h :
  head_hidden minPart kps -> headX minPart kps = Normal h -> h = NaN.
Proof.
  intros Hh H. unfold headX in H.
  apply mbind_Normal in H as (parts & Hp & H).
  apply (hidden_head_parts _ Hh) in Hp as ->.
  simpl in H. injection H as <-. reflexivity.
Qed.

Lemma hidden_headY h :
  head_hidden minPart kps -> headY minPart kps = Normal h -> h = NaN.
Proof.
  intros Hh H. unfold headY in H.
  apply mbind_Normal in H as (parts & Hp & H).
  apply (hidden_head_parts _ Hh) in Hp as ->.
  simpl in H. injection H as <-. reflexivity.
Qed.

Lemma hidden_not_off p : head_hidden minPart kps -> off_head minPart kps p -> False.
Proof.
  intros Hh (a & h & _ & Hx & Hoff).
  apply (hidden_headX _ Hh) in Hx as ->.
  destruct (js_lt_NaN_r (Fin a)). destruct Hoff; congruence.
Qed.

End HelperFacts.

(** ** The classifier on complete poses *)

Section CompleteFacts.

Variable minPart : Q.
Variable kps : list Keypoint.t.

Lemma property_total {A} (get : Keypoint.t -> A) p :
  find_part kps p <> None -> exists v, property (find_part kps p) get = Normal v.
Proof. destruct (find_part kps p); [eauto | congruence]. Qed.

Lemma property_present {A} (get : Keypoint.t -> A) p v :
  property (find_part kps p) get = Normal v -> find_part kps p <> None.
Proof. destruct (find_part kps p); [congruence | discriminate]. Qed.

Lemma isAllConfidentParts_total parts :
  (forall p, In p parts -> find_part kps p <> None) ->
  exists b, isAllConfidentParts minPart kps parts = Normal b.
Proof.
  intros H. unfold isAllConfidentParts.
  destruct (map_total (getScore kps) parts) as (scores & -> & _).
  - intros p Hp. apply property_total. auto.
  - simpl. eauto.
Qed.

(** One required part below the threshold fails the eligibility gate, without
    an exception, when all required parts are present. *)
Lemma isAllConfidentParts_unsure parts p :
  (forall q, In q parts -> find_part kps q <> None) ->
  In p parts -> unsure minPart kps p ->
  isAllConfidentParts minPart kps parts = Normal false.
Proof.
  intros H Hp (s & Hs & Hle). unfold isAllConfidentParts.
  destruct (map_total (getScore kps) parts) as (scores & -> & Hin).
  - intros q Hq. apply property_total. auto.
  - simpl. f_equal. apply not_true_is_false. intros Hall.
    rewrite forallb_forall in Hall.
    specialize (Hall s (Hin p s Hp Hs)). apply Qltb_lt in Hall.
    exact (Qlt_not_le _ _ Hall Hle).
Qed.

Lemma headX_total :
  (forall p, In p headParts -> find_part kps p <> None) ->
  exists h, headX minPart kps = Normal h.
Proof.
  intros H. unfold headX, confidentHeadParts.
  destruct (filter_total
    (fun partName => s ← getScore kps partName; Normal (Qltb minPart s)) headParts)
    as (parts & -> & Hincl).
  - intros p Hp. destruct (property_total Keypoint.score p (H p Hp)) as [s Hs].
    unfold getScore. rewrite Hs. simpl. eauto.
  - simpl. destruct (map_total (getX kps) parts) as (vals & -> & _).
    + intros p Hp. apply property_total. auto.
    + simpl. eauto.
Qed.

Hypothesis all_present : complete kps.

Lemma complete_arm p : In p arms -> find_part kps p <> None.
Proof. intros Hp. apply all_present. apply in_or_app. auto. Qed.

Lemma complete_head p : In p headParts -> find_part kps p <> None.
Proof. intros Hp. apply all_present. apply in_or_app. auto. Qed.

(** On a complete pose no lookup fails, so the chain returns. *)
Lemma matchedGesture_total : exists r, matchedGesture minPart kps = Normal r.
Proof.
  destruct (isAllConfidentParts_total arms complete_arm) as [b6 H6].
  destruct (isAllConfidentParts_total forearms) as [b4 H4].
  { intros p Hp. apply complete_arm. simpl in *. tauto. }
  destruct (headX_total complete_head) as [h Hh].
  assert (Hy : forall p, In p arms -> exists v, getY kps p = Normal v).
  { intros p Hp. apply property_total, complete_arm, Hp. }
  assert (Hx : forall p, In p arms -> exists v, getX kps p = Normal v).
  { intros p Hp. apply property_total, complete_arm, Hp. }
  destruct (Hy "leftWrist") as [lwy Hlwy]; [simpl; tauto |].
  destruct (Hy "leftElbow") as [ley Hley]; [simpl; tauto |].
  destruct (Hy "leftShoulder") as [lsy Hlsy]; [simpl; tauto |].
  destruct (Hy "rightWrist") as [rwy Hrwy]; [simpl; tauto |].
  destruct (Hy "rightElbow") as [rey Hrey]; [simpl; tauto |].
  destruct (Hy "rightShoulder") as [rsy Hrsy]; [simpl; tauto |].
  destruct (Hx "leftWrist") as [lwx Hlwx]; [simpl; tauto |].
  destruct (Hx "rightWrist") as [rwx Hrwx]; [simpl; tauto |].
  unfold matchedGesture, isYMCA, isBabyShark, isDisco, isThriller,
    oneArmUp, wristsAstride, wristsAside, lt, gt, lt_head, gt_head.
  rewrite H6, H4, Hh, Hlwy, Hley, Hlsy, Hrwy, Hrey, Hrsy, Hlwx, Hrwx.
  unfold Completion.and, Completion.or. simpl.
  repeat match goal with
         | |- context [if ?b then _ else _] => destruct b; simpl
         end; eauto.
Qed.

End CompleteFacts.

Lemma matchedGesture_None minPart kps :
  matchedGesture minPart kps = Normal None ->
  isYMCA minPart kps = Normal false /\ isBabyShark minPart kps = Normal false /\
  isDisco minPart kps = Normal false /\ isThriller minPart kps = Normal false.
Proof.
  unfold matchedGesture. intros H.
  apply mbind_Normal in H as ([] & -> & H); [discriminate |].
  apply mbind_Normal in H as ([] & -> & H); [discriminate |].
  apply mbind_Normal in H as ([] & -> & H); [discriminate |].
  apply mbind_Normal in H as ([] & -> & H); [discriminate |].
  auto.
Qed.

Lemma classify_Some minPose minPart pose g :
  classify minPose minPart pose = Normal (Some g) ->
  matchedGesture minPart (Pose.keypoints pose) = Normal (Some g).
Proof.
  unfold classify. destruct (Qle_bool minPose (Pose.score pose)); congruence.
Qed.

(** An absent required part makes the eligibility gate itself raise. *)
Lemma absent_part_raises minPart kps parts p :
  In p parts -> find_part kps p = None ->
  isAllConfidentParts minPart kps parts = Throw TypeError.
Proof.
  intros Hp Hnone. unfold isAllConfidentParts.
  assert (H : Completion.map (getScore kps) parts = Throw TypeError).
  { induction parts as [| q parts IH]; [destruct Hp |].
    simpl. unfold getScore at 1.
    destruct (find_part kps q) as [k |] eqn:Hq; simpl; [| reflexivity].
    destruct Hp as [-> | Hp]; [congruence |].
    rewrite (IH Hp). reflexivity. }
  rewrite H. reflexivity.
Qed.

(** ** The pose callback *)

(** When no branch of the chain is taken the callback neither touches
    [currentState] nor emits anything. *)
Lemma poseCallback_unmatched w minPose minPart pose cur :
  (forall g, classify minPose minPart pose <> Normal (Some g)) ->
  held (poseCallback w minPose minPart pose cur) = cur /\
  emitted (poseCallback w minPose minPart pose cur) = [].
Proof.
  intros H. unfold poseCallback, Action.bind, Action.lift. simpl.
  destruct (classify minPose minPart pose) as [[g |] |]; simpl; auto.
  exfalso. exact (H g eq_refl).
Qed.

Lemma poseCallback_none w minPose minPart pose cur :
  classify minPose minPart pose = Normal None ->
  poseCallback w minPose minPart pose cur = Action.ret tt cur.
Proof.
  intros H. unfold poseCallback, Action.bind, Action.lift. simpl.
  rewrite H. reflexivity.
Qed.

(** ** The claims about the classifier *)

(** C6: a pose whose overall score is below [minPoseConfidence] is classified
    as none, whatever its keypoints are; nothing is evaluated (not even a
    lookup that would raise) and the callback leaves [currentState] alone
    and emits nothing. *)
Theorem low_pose_score_is_none minPose minPart pose w cur :
  (Pose.score pose < minPose)%Q ->
  classify minPose minPart pose = Normal None /\
  poseCallback w minPose minPart pose cur =
    {| result := Normal tt; held := cur; emitted := [] |}.
Proof.
  intros Hlt.
  assert (Hc : classify minPose minPart pose = Normal None).
  { unfold classify. destruct (Qle_bool minPose (Pose.score pose)) eqn:E.
    - apply Qle_bool_iff in E. exfalso. exact (Qlt_not_le _ _ Hlt E).
    - reflexivity. }
  split; [exact Hc |]. rewrite (poseCallback_none _ _ _ _ _ Hc). reflexivity.
Qed.

Lemma low_pose_score_is_none_witness :
  (Pose.score (Pose.mk (5 # 100) (Pose.keypoints ymca_pose)) < 1 # 10)%Q /\
  classify (1 # 10) (1 # 2) (Pose.mk (5 # 100) (Pose.keypoints ymca_pose)) = Normal None /\
  poseCallback world_ok (1 # 10) (1 # 2)
    (Pose.mk (5 # 100) (Pose.keypoints ymca_pose)) initialState =
    {| result := Normal tt; held := initialState; emitted := [] |}.
Proof.
  split; [reflexivity |].
  apply (low_pose_score_is_none (1 # 10) (1 # 2)
           (Pose.mk (5 # 100) (Pose.keypoints ymca_pose)) world_ok initialState).
  reflexivity.
Defined.

(** C5: when no head part (nose, eyes, ears) has a confidence above
    [minPartConfidence], the head reference is the average of an empty array
    (NaN), no branch of the chain is taken, and the callback leaves
    [currentState] alone and emits nothing; on a complete pose every branch
    evaluates to false and the classification is none. *)
Theorem hidden_head_is_none minPose minPart pose w cur :
  head_hidden minPart (Pose.keypoints pose) ->
  (forall h, headX minPart (Pose.keypoints pose) = Normal h -> h = NaN) /\
  (forall g, classify minPose minPart pose <> Normal (Some g)) /\
  held (poseCallback w minPose minPart pose cur) = cur /\
  emitted (poseCallback w minPose minPart pose cur) = [] /\
  (complete (Pose.keypoints pose) ->
     classify minPose minPart pose = Normal None /\
     (Qle_bool minPose (Pose.score pose) = true ->
        isYMCA minPart (Pose.keypoints pose) = Normal false /\
        isBabyShark minPart (Pose.keypoints pose) = Normal false /\
        isDisco minPart (Pose.keypoints pose) = Normal false /\
        isThriller minPart (Pose.keypoints pose) = Normal false)).
Proof.
  intros Hh.
  assert (Hno : forall g, classify minPose minPart pose <> Normal (Some g)).
  { intros g Hg. apply classify_Some, matchedGesture_needs in Hg.
    destruct Hg as (_ & _ & Hoff & _). exact (hidden_not_off _ _ _ Hh Hoff). }
  split; [intros h; apply hidden_headX, Hh |].
  split; [exact Hno |].
  destruct (poseCallback_unmatched w _ _ _ cur Hno) as [Hheld Hem].
  split; [exact Hheld |]. split; [exact Hem |].
  intros Hc.
  assert (Hcl : classify minPose minPart pose = Normal None).
  { unfold classify in *. destruct (Qle_bool minPose (Pose.score pose)); [| reflexivity].
    destruct (matchedGesture_total minPart _ Hc) as [[g |] Hr]; [| exact Hr].
    exfalso. exact (Hno g Hr). }
  split; [exact Hcl |].
  intros Hs. unfold classify in Hcl. rewrite Hs in Hcl.
  apply matchedGesture_None. exact Hcl.
Qed.

Lemma hidden_head_pose_hidden : head_hidden (1 # 2) (Pose.keypoints hidden_head_pose).
Proof.
  intros p s Hp Hs Hlt. simpl in Hp.
  repeat (destruct Hp as [<- | Hp];
          [vm_compute in Hs; injection Hs as <-; vm_compute in Hlt; discriminate |]).
  destruct Hp.
Qed.

Lemma complete_with_head score arm_kps :
  (forall p, In p arms -> find_part (head score ++ arm_kps) p <> None) ->
  complete (head score ++ arm_kps).
Proof.
  intros H p Hp. apply in_app_or in Hp as [Hp | Hp]; [auto |].
  simpl in Hp.
  repeat (destruct Hp as [<- | Hp]; [vm_compute; discriminate |]).
  destruct Hp.
Qed.

Lemma hidden_head_pose_complete : complete (Pose.keypoints hidden_head_pose).
Proof.
  apply complete_with_head. intros p Hp. simpl in Hp.
  repeat (destruct Hp as [<- | Hp]; [vm_compute; discriminate |]).
  destruct Hp.
Qed.

Lemma hidden_head_is_none_witness :
  classify (1 # 10) (1 # 2) hidden_head_pose = Normal None /\
  held (poseCallback world_ok (1 # 10) (1 # 2) hidden_head_pose initialState)
    = initialState /\
  emitted (poseCallback world_ok (1 # 10) (1 # 2) hidden_head_pose initialState) = [].
Proof.
  destruct (hidden_head_is_none (1 # 10) (1 # 2) hidden_head_pose world_ok
              initialState hidden_head_pose_hidden)
    as (_ & _ & Hheld & Hem & Hc).
  destruct (Hc hidden_head_pose_complete) as [Hcl _].
  exact (conj Hcl (conj Hheld Hem)).
Defined.

(** C2, as the code has it: on a pose that contains every part the classifier
    looks up, a required part whose confidence is not above
    [minPartConfidence] makes the branches that require it evaluate to false
    without an exception, the chain goes on to the next branch, and the
    classification always returns (none when no branch holds). *)
Theorem unsure_part_skips_branch minPose minPart pose :
  complete (Pose.keypoints pose) ->
  (forall p, In p arms -> unsure minPart (Pose.keypoints pose) p ->
     isYMCA minPart (Pose.keypoints pose) = Normal false /\
     isBabyShark minPart (Pose.keypoints pose) = Normal false /\
     isDisco minPart (Pose.keypoints pose) = Normal false) /\
  (forall p, In p forearms -> unsure minPart (Pose.keypoints pose) p ->
     isThriller minPart (Pose.keypoints pose) = Normal false /\
     classify minPose minPart pose = Normal None) /\
  (exists r, classify minPose minPart pose = Normal r).
Proof.
  intros Hc.
  assert (H6 : forall p, In p arms -> unsure minPart (Pose.keypoints pose) p ->
     isAllConfidentParts minPart (Pose.keypoints pose) arms = Normal false).
  { intros p Hp Hu. apply (isAllConfidentParts_unsure _ _ _ p); auto.
    apply complete_arm, Hc. }
  assert (H4 : forall p, In p forearms -> unsure minPart (Pose.keypoints pose) p ->
     isAllConfidentParts minPart (Pose.keypoints pose) forearms = Normal false).
  { intros p Hp Hu. apply (isAllConfidentParts_unsure _ _ _ p); auto.
    intros q Hq. apply complete_arm; [exact Hc |]. simpl in *. tauto. }
  split; [| split].
  - intros p Hp Hu. unfold isYMCA, isBabyShark, isDisco.
    rewrite (H6 p Hp Hu). auto.
  - intros p Hp Hu. split.
    + unfold isThriller. rewrite (H4 p Hp Hu). reflexivity.
    + unfold classify. destruct (Qle_bool minPose (Pose.score pose)); [| reflexivity].
      unfold matchedGesture, isYMCA, isBabyShark, isDisco, isThriller.
      rewrite (H4 p Hp Hu), (H6 p); [reflexivity | simpl in *; tauto | exact Hu].
  - unfold classify. destruct (Qle_bool minPose (Pose.score pose)); [| eauto].
    apply matchedGesture_total, Hc.
Qed.

(** C10, as the code has it: a pose in which a wrist is level with its elbow,
    or a wrist is exactly at the head reference, takes no branch of the
    chain, so the callback does not call [updateState]; an elbow level with
    its shoulder rules out YMCA, Baby Shark and Disco. *)
Theorem boundary_pose_matches_nothing minPose minPart pose w cur :
  let kps := Pose.keypoints pose in
  (level_y kps "leftWrist" "leftElbow" \/ level_y kps "rightWrist" "rightElbow" \/
   on_head minPart kps "leftWrist" \/ on_head minPart kps "rightWrist" ->
     (forall g, classify minPose minPart pose <> Normal (Some g)) /\
     isYMCA minPart kps <> Normal true /\ isBabyShark minPart kps <> Normal true /\
     isDisco minPart kps <> Normal true /\ isThriller minPart kps <> Normal true /\
     held (poseCallback w minPose minPart pose cur) = cur /\
     emitted (poseCallback w minPose minPart pose cur) = []) /\
  (level_y kps "leftElbow" "leftShoulder" \/ level_y kps "rightElbow" "rightShoulder" ->
     isYMCA minPart kps <> Normal true /\ isBabyShark minPart kps <> Normal true /\
     isDisco minPart kps <> Normal true /\
     forall g, classify minPose minPart pose = Normal (Some g) -> g = "Thriller").
Proof.
  intros kps. split.
  - intros Hb.
    assert (Hneed : ~ ((apart_y kps "leftWrist" "leftElbow" /\
                        apart_y kps "rightWrist" "rightElbow") /\
                       (off_head minPart kps "leftWrist" /\
                        off_head minPart kps "rightWrist"))).
    { intros [[Hl Hr] [Hol Hor]].
      destruct Hb as [Hb | [Hb | [Hb | Hb]]];
        eauto using apart_not_level, off_not_on. }
    assert (Hno : forall g, classify minPose minPart pose <> Normal (Some g)).
    { intros g Hg. apply classify_Some, matchedGesture_needs in Hg. tauto. }
    split; [exact Hno |].
    split; [intros H; apply isYMCA_needs in H; tauto |].
    split; [intros H; apply isBabyShark_needs in H; tauto |].
    split; [intros H; apply isDisco_needs in H; tauto |].
    split; [intros H; apply isThriller_needs in H; tauto |].
    apply poseCallback_unmatched, Hno.
  - intros Hb.
    assert (Hneed : ~ (apart_y kps "leftElbow" "leftShoulder" /\
                       apart_y kps "rightElbow" "rightShoulder")).
    { intros [Hl Hr]. destruct Hb as [Hb | Hb]; eauto using apart_not_level. }
    assert (H1 : isYMCA minPart kps <> Normal true)
      by (intros H; apply isYMCA_needs in H; tauto).
    assert (H2 : isBabyShark minPart kps <> Normal true)
      by (intros H; apply isBabyShark_needs in H; tauto).
    assert (H3 : isDisco minPart kps <> Normal true)
      by (intros H; apply isDisco_needs in H; tauto).
    repeat (split; [assumption |]).
    intros g Hg. apply classify_Some, matchedGesture_Some in Hg.
    fold kps in Hg. tauto.
Qed.

(** ** [updateState], path by path *)

Lemma updateState_same w name : updateState w name name = Action.ret tt name.
Proof.
  unfold updateState, Action.bind, Action.get_currentState. simpl.
  rewrite String.eqb_refl. reflexivity.
Qed.

(** C8: when a play or seek request is rejected with status 401,
    [updateState] redirects to the authorization page exactly once, right
    after the rejected request, and issues nothing else: the rejected
    request is the last one, and play and seek were sent at most once. *)
Theorem expired_authorization_renews_once w name cur rq :
  In (spotify rq (Rejected 401)) (emitted (updateState w name cur)) ->
  count is_authorize (emitted (updateState w name cur)) = 1%nat /\
  (exists before,
     emitted (updateState w name cur) =
       (before ++ [spotify rq (Rejected 401); redirect_to_authorize])%list /\
     (forall rp, ~ In (spotify rq rp) before) /\
     ~ In redirect_to_authorize before) /\
  count is_play (emitted (updateState w name cur)) = 1%nat /\
  (count is_seek (emitted (updateState w name cur)) <= 1)%nat.
Proof.
  updateState_paths w name cur; intros Hrej; cbn [In] in Hrej; solve_in_events.
  all: try discriminate.
  all: try (apply Z.eqb_neq in Hseek401; congruence).
  all: try (apply Z.eqb_neq in Hplay401; congruence).
  - split; [reflexivity |]. split; [| split; [reflexivity | unfold count; simpl; lia]].
    eexists [_; _]. split; [reflexivity |]. split.
    + intros rp [H | [H | []]]; discriminate.
    + intros [H | [H | []]]; discriminate.
  - split; [reflexivity |]. split; [| split; [reflexivity | unfold count; simpl; lia]].
    eexists [_]. split; [reflexivity |]. split.
    + intros rp [H | []]; discriminate.
    + intros [H | []]; discriminate.
Qed.

(** C3, as the code has it: when a play or seek request is rejected with a
    status other than 401, [updateState] swallows the rejection: nothing is
    written to the console for it (the only console line is the one printed
    before the request), nothing is retried, no authorization is started, the
    call returns normally and [currentState] is set to the new name. *)
Theorem other_rejection_is_swallowed w name cur rq status :
  In (spotify rq (Rejected status)) (emitted (updateState w name cur)) ->
  status <> 401%Z ->
  result (updateState w name cur) = Normal tt /\
  held (updateState w name cur) = name /\
  (exists before,
     emitted (updateState w name cur) =
       (before ++ [spotify rq (Rejected status)])%list /\
     forall rp, ~ In (spotify rq rp) before) /\
  List.filter is_console (emitted (updateState w name cur)) =
    [console_log ["Updating State:"; name]] /\
  logs_after_rejection (emitted (updateState w name cur)) = false /\
  count is_authorize (emitted (updateState w name cur)) = 0%nat /\
  count is_play (emitted (updateState w name cur)) = 1%nat /\
  (count is_seek (emitted (updateState w name cur)) <= 1)%nat.
Proof.
  updateState_paths w name cur; intros Hrej Hne; cbn [In] in Hrej; solve_in_events.
  all: try discriminate.
  all: try (apply Z.eqb_eq in Hseek401; congruence).
  all: try (apply Z.eqb_eq in Hplay401; congruence).
  - repeat (split; [reflexivity |]). split.
    + eexists [_; _]. split; [reflexivity |].
      intros rp [H | [H | []]]; discriminate.
    + repeat (split; [reflexivity |]). unfold count; simpl; lia.
  - repeat (split; [reflexivity |]). split.
    + eexists [_]. split; [reflexivity |].
      intros rp [H | []]; discriminate.
    + repeat (split; [reflexivity |]). unfold count; simpl; lia.
Qed.

(** C4, as the code has it: every play request carries the value of the
    selected option of the device list, with the uri of the song; every
    seek request carries only the position of the song, and no device
    identifier. *)
Theorem play_carries_device_seek_does_not w name cur rq rp :
  In (spotify rq rp) (emitted (updateState w name cur)) ->
  (exists device,
     getSelectedDevice w = Normal device /\
     rq = play device [member_uri (get_songLookup name)] /\
     request_device_id rq = Some device) \/
  (exists pos,
     member_positive_position (get_songLookup name) = Some pos /\
     rq = seek pos /\ request_device_id rq = None).
Proof.
  updateState_paths w name cur; intros Hrq; cbn [In] in Hrq; solve_in_events;
    try discriminate; eauto 6.
Qed.

Lemma classified_in_songLookup g : In g classified_names -> in_songLookup g = true.
Proof.
  intros Hg. simpl in Hg.
  repeat (destruct Hg as [<- | Hg]; [vm_compute; reflexivity |]). destruct Hg.
Qed.

Lemma feed_same g ws : feed g ws g = Action.ret tt g.
Proof.
  induction ws as [| w ws IH]; [reflexivity |].
  change (feed g (w :: ws) g) with
    (Action.bind (Action.detach (updateState w g)) (fun _ => feed g ws) g).
  unfold Action.bind, Action.detach. rewrite updateState_same.
  cbn [Action.ret result held emitted]. rewrite IH. reflexivity.
Qed.

Lemma feed_cons g w ws cur :
  feed g (w :: ws) cur =
  {| result := result (feed g ws (held (updateState w g cur)));
     held := held (feed g ws (held (updateState w g cur)));
     emitted := emitted (updateState w g cur) ++
                emitted (feed g ws (held (updateState w g cur))) |}.
Proof. reflexivity. Qed.

Lemma eqb_neq_false (a b : string) : a <> b -> String.eqb a b = false.
Proof. intros H. apply String.eqb_neq. exact H. Qed.

(** With a selected device [updateState] returns normally and holds the new
    name afterwards, on every path. *)
Lemma updateState_with_device w name cur device :
  getSelectedDevice w = Normal device ->
  result (updateState w name cur) = Normal tt /\
  held (updateState w name cur) = name.
Proof.
  intros Hd. updateState_paths w name cur; try (split; reflexivity).
  - apply String.eqb_eq in Hsame. subst. split; reflexivity.
  - congruence.
Qed.

Lemma updateState_plays_once w g cur device :
  In g classified_names -> cur <> g -> getSelectedDevice w = Normal device ->
  count is_play (emitted (updateState w g cur)) = 1%nat.
Proof.
  intros Hg Hne Hd. apply classified_in_songLookup in Hg.
  apply eqb_neq_false in Hne.
  updateState_paths w g cur; try congruence; reflexivity.
Qed.

(** Calls that are awaited: when each call has ended before the next one
    starts, the same classified name fed on N consecutive calls, to a page
    that holds another name and with an output device selected, gives one
    transition and one play request, both in the first call; every repeat
    returns at once, leaves [currentState] unchanged and emits nothing. *)
Theorem awaited_calls_play_once g w ws cur device :
  In g classified_names -> cur <> g -> getSelectedDevice w = Normal device ->
  (2 <= length (w :: ws))%nat ->
  held (updateState w g cur) = g /\
  count is_play (emitted (updateState w g cur)) = 1%nat /\
  (forall w', updateState w' g g =
     {| result := Normal tt; held := g; emitted := [] |}) /\
  feed g ws g = {| result := Normal tt; held := g; emitted := [] |} /\
  held (feed g (w :: ws) cur) = g /\
  emitted (feed g (w :: ws) cur) = emitted (updateState w g cur) /\
  count is_play (emitted (feed g (w :: ws) cur)) = 1%nat.
Proof.
  intros Hg Hne Hd _.
  destruct (updateState_with_device w g cur device Hd) as [Hres Hheld].
  pose proof (updateState_plays_once w g cur device Hg Hne Hd) as Hone.
  assert (Hfeed : held (feed g (w :: ws) cur) = g /\
                  emitted (feed g (w :: ws) cur) = emitted (updateState w g cur)).
  { rewrite feed_cons, Hheld, feed_same. cbn [Action.ret held emitted].
    rewrite app_nil_r. auto. }
  destruct Hfeed as [Hfh Hfe].
  split; [exact Hheld |]. split; [exact Hone |].
  split; [intros w'; apply updateState_same |].
  split; [apply feed_same |].
  split; [exact Hfh |]. split; [exact Hfe |].
  rewrite Hfe. exact Hone.
Qed.

(** When [currentState] already is the new name, or an option of the device
    list is selected, [updateState] returns normally and holds the new name
    afterwards, whether the name is in [songLookup] or not and however the
    requests settle; a name that [in] does not find in [songLookup] is
    reported once, on the first of consecutive calls. *)
Theorem updateState_holds_new_name w name cur :
  cur = name \/ (exists device, getSelectedDevice w = Normal device) ->
  result (updateState w name cur) = Normal tt /\
  held (updateState w name cur) = name /\
  (in_songLookup name = false -> cur <> name -> forall ws,
     held (feed name (w :: ws) cur) = name /\
     emitted (feed name (w :: ws) cur) =
       [console_log ["Updating State:"; name];
        console_error ["Could not find the song for the state:"; name]]).
Proof.
  intros Hpre.
  assert (H : result (updateState w name cur) = Normal tt /\
              held (updateState w name cur) = name).
  { destruct Hpre as [-> | [device Hd]].
    - rewrite updateState_same. split; reflexivity.
    - exact (updateState_with_device w name cur device Hd). }
  destruct H as [Hres Hheld]. split; [exact Hres |]. split; [exact Hheld |].
  intros Hnot Hne ws.
  destruct Hpre as [-> | [device Hd]]; [congruence |].
  rewrite feed_cons, Hheld, feed_same. cbn [Action.ret held emitted].
  rewrite app_nil_r. split; [reflexivity |].
  apply eqb_neq_false in Hne.
  clear Hres Hheld. revert Hnot Hne Hd.
  updateState_paths w name cur; intros; try congruence; reflexivity.
Qed.

(** ** Frames *)

Lemma settle_0_cons t rest s :
  in_flight s = t :: rest ->
  settle 0 s =
  updateState_resume t
    {| currentState := currentState s; in_flight := rest; trace := trace s |}.
Proof. intros H. unfold settle. rewrite H. reflexivity. Qed.

Lemma settle_oldest_idle n s : in_flight s = [] -> settle_oldest n s = s.
Proof. intros H. destruct n; [reflexivity |]. simpl. rewrite H. reflexivity. Qed.

Lemma settle_oldest_cons n t rest s :
  in_flight s = t :: rest ->
  settle_oldest (S n) s =
  settle_oldest n
    (updateState_resume t
       {| currentState := currentState s; in_flight := rest; trace := trace s |}).
Proof.
  intros H. cbn [settle_oldest]. rewrite H, (settle_0_cons t rest s H). reflexivity.
Qed.










(** The [Action] [updateState] is the call that starts on a page with no
    call under way and whose requests settle before anything else happens. *)
Lemma updateState_alone w name cur :
  settle_all (updateState_start w name (fresh cur)) =
  {| currentState := held (updateState w name cur);
     in_flight := [];
     trace := emitted (updateState w name cur) |}.
Proof.
  unfold settle_all, waiting_turns, updateState_start, fresh.
  cbn [currentState in_flight trace app].
  updateState_paths w name cur;
    cbn [currentState in_flight trace app List.map waits list_sum fold_right Nat.add].
  all: try reflexivity.
  all: erewrite settle_oldest_cons by (cbn [in_flight app]; reflexivity);
    cbn [updateState_resume currentState in_flight trace app]; rewrite Hplay.
  all: unfold catch_block, is_401; cbn [ex_status]; rewrite ?Hplay401, ?Hpos.
  all: try reflexivity.
  all: erewrite settle_oldest_cons by (cbn [in_flight app]; reflexivity);
    cbn [updateState_resume currentState in_flight trace app]; rewrite Hseek.
  all: unfold catch_block, is_401; cbn [ex_status]; rewrite ?Hseek401.
  all: reflexivity.
Qed.

(** So is [poseCallback], for a frame with one pose. *)
Lemma poseCallback_alone w minPose minPart pose cur :
  poseDetectionFrame
    {| minPoseConfidence := minPose; minPartConfidence := minPart;
       poses := [(pose, w)] |} cur =
  Action.detach (poseCallback w minPose minPart pose) cur.
Proof.
  unfold poseDetectionFrame, poseDetectionFrame_start, forEach, Action.detach,
    poseCallback, poseCallback_start, Action.bind, Action.lift.
  cbn [fold_left poses minPoseConfidence minPartConfidence fst snd result held emitted].
  destruct (classify minPose minPart pose) as [[g |] |].
  - rewrite updateState_alone. reflexivity.
  - reflexivity.
  - reflexivity.
Qed.

Lemma frames_cons f fs cur :
  frames (f :: fs) cur =
  {| result := result (frames fs (held (poseDetectionFrame f cur)));
     held := held (frames fs (held (poseDetectionFrame f cur)));
     emitted := emitted (poseDetectionFrame f cur) ++
                emitted (frames fs (held (poseDetectionFrame f cur))) |}.
Proof. reflexivity. Qed.

(** *** Every suspended call ends *)

Lemma waiting_turns_cons t rest cur evs :
  waiting_turns {| currentState := cur; in_flight := t :: rest; trace := evs |} =
  (waits t + waiting_turns {| currentState := cur; in_flight := rest; trace := evs |})%nat.
Proof. reflexivity. Qed.

Lemma resume_waits_less t s :
  (waiting_turns (updateState_resume t s) < waits t + waiting_turns s)%nat.
Proof.
  unfold waiting_turns.
  destruct t as [w name | w name]; cbn [updateState_resume waits].
  - destruct (play_reply w); [destruct (member_positive_position _) |];
      cbn [in_flight]; rewrite ?List.map_app, ?list_sum_app; cbn; lia.
  - destruct (seek_reply w); cbn [in_flight]; lia.
Qed.

Lemma settle_oldest_done n s :
  (waiting_turns s <= n)%nat -> in_flight (settle_oldest n s) = [].
Proof.
  revert s. induction n as [| n IH]; intros s Hn.
  - cbn [settle_oldest]. destruct s as [cur [| t rest] evs]; [reflexivity |].
    rewrite waiting_turns_cons in Hn. destruct t; cbn [waits] in Hn; lia.
  - destruct (in_flight s) as [| t rest] eqn:Hs.
    + rewrite settle_oldest_idle; assumption.
    + rewrite (settle_oldest_cons n t rest s Hs). apply IH.
      pose proof (resume_waits_less t
                    {| currentState := currentState s; in_flight := rest;
                       trace := trace s |}) as Hlt.
      destruct s as [cur fl evs]. cbn [in_flight currentState trace] in *. subst fl.
      rewrite waiting_turns_cons in Hn. lia.
Qed.

(** After [settle_all] no call is under way. *)
Lemma settle_all_done s : in_flight (settle_all s) = [].
Proof. apply settle_oldest_done. reflexivity. Qed.

Lemma count_app P evs evs' :
  count P (evs ++ evs') = (count P evs + count P evs')%nat.
Proof. unfold count. rewrite List.filter_app, List.length_app. reflexivity. Qed.

(** A call that starts while another name is held and a device is selected
    sends its play request at once; [currentState] is not touched before
    the request has settled. *)
Lemma updateState_start_plays w g s device :
  In g classified_names -> currentState s <> g ->
  getSelectedDevice w = Normal device ->
  currentState (updateState_start w g s) = currentState s /\
  count is_play (trace (updateState_start w g s)) = S (count is_play (trace s)).
Proof.
  intros Hg Hne Hd. apply classified_in_songLookup in Hg.
  apply eqb_neq_false in Hne.
  unfold updateState_start. rewrite Hne, Hd, Hg. cbn [currentState trace].
  split; [reflexivity |]. rewrite !count_app. unfold count. simpl. lia.
Qed.

(** *** A frame that changes the held name *)











(** ** Concrete runs: the claims at explicit inputs *)

Lemma ymca_pose_complete : complete (Pose.keypoints ymca_pose).
Proof.
  apply complete_with_head. intros p Hp. simpl in Hp.
  repeat (destruct Hp as [<- | Hp]; [vm_compute; discriminate |]).
  destruct Hp.
Qed.

Lemma unsure_part_skips_branch_witness :
  unsure (8 # 10) (Pose.keypoints ymca_pose) "leftWrist" /\
  isThriller (8 # 10) (Pose.keypoints ymca_pose) = Normal false /\
  classify (1 # 10) (8 # 10) ymca_pose = Normal None.
Proof.
  assert (Hu : unsure (8 # 10) (Pose.keypoints ymca_pose) "leftWrist").
  { exists (7 # 10). split; [reflexivity | discriminate]. }
  split; [exact Hu |].
  destruct (unsure_part_skips_branch (1 # 10) (8 # 10) ymca_pose ymca_pose_complete)
    as (_ & H & _).
  apply (H "leftWrist"); [simpl; auto | exact Hu].
Defined.

(** C2 fails as stated: with the required part "leftWrist" absent from the
    keypoints the lookup raises a TypeError, in the eligibility gate of the
    first branch, and the classification raises it too. *)
Lemma absent_part_raises_TypeError :
  In "leftWrist" arms /\
  find_part (Pose.keypoints no_left_wrist_pose) "leftWrist" = None /\
  isAllConfidentParts (1 # 2) (Pose.keypoints no_left_wrist_pose) arms = Throw TypeError /\
  classify (1 # 10) (1 # 2) no_left_wrist_pose = Throw TypeError /\
  result (poseCallback world_ok (1 # 10) (1 # 2) no_left_wrist_pose initialState)
    = Throw TypeError.
Proof. vm_compute. auto. Qed.

Lemma level_arm_pose_levels :
  level_y (Pose.keypoints level_arm_pose) "leftWrist" "leftElbow" /\
  level_y (Pose.keypoints level_arm_pose) "leftElbow" "leftShoulder".
Proof. split; exists 200%Q, 200%Q; repeat split; reflexivity. Qed.

Lemma boundary_pose_matches_nothing_witness :
  (forall g, classify (1 # 10) (1 # 2) level_arm_pose <> Normal (Some g)) /\
  emitted (poseCallback world_ok (1 # 10) (1 # 2) level_arm_pose initialState) = [] /\
  isDisco (1 # 2) (Pose.keypoints level_arm_pose) <> Normal true.
Proof.
  destruct (boundary_pose_matches_nothing (1 # 10) (1 # 2) level_arm_pose world_ok
              initialState) as [H1 H2].
  destruct (H1 (or_introl (proj1 level_arm_pose_levels)))
    as (Hno & _ & _ & _ & _ & _ & Hem).
  destruct (H2 (or_introl (proj2 level_arm_pose_levels))) as (_ & _ & Hd & _).
  exact (conj Hno (conj Hem Hd)).
Defined.

(** C10 fails as stated: with the left elbow exactly level with the left
    shoulder, both wrists above their elbows and left of the head, the
    Thriller branch (which never reads a shoulder) holds and [updateState]
    is called. *)
Lemma level_elbow_is_Thriller :
  level_y (Pose.keypoints level_elbow_pose) "leftElbow" "leftShoulder" /\
  isThriller (1 # 2) (Pose.keypoints level_elbow_pose) = Normal true /\
  classify (1 # 10) (1 # 2) level_elbow_pose = Normal (Some "Thriller") /\
  held (poseCallback world_ok (1 # 10) (1 # 2) level_elbow_pose initialState)
    = "Thriller".
Proof.
  split; [exists 200%Q, 200%Q; repeat split; reflexivity |].
  vm_compute. auto.
Qed.

Lemma expired_authorization_renews_once_witness :
  In (spotify (play "kitchen-speaker" [Some "spotify:track:7Cp69rNBwU0gaFT8zxExlE"])
        (Rejected 401))
     (emitted (updateState (world_play_fails 401) "YMCA" initialState)) /\
  count is_authorize (emitted (updateState (world_play_fails 401) "YMCA" initialState))
    = 1%nat /\
  count is_play (emitted (updateState (world_play_fails 401) "YMCA" initialState))
    = 1%nat.
Proof.
  assert (Hin : In (spotify (play "kitchen-speaker"
                               [Some "spotify:track:7Cp69rNBwU0gaFT8zxExlE"])
                      (Rejected 401))
                   (emitted (updateState (world_play_fails 401) "YMCA" initialState))).
  { vm_compute. auto. }
  split; [exact Hin |].
  destruct (expired_authorization_renews_once _ _ _ _ Hin) as (Ha & _ & Hp & _).
  exact (conj Ha Hp).
Defined.

Lemma other_rejection_is_swallowed_witness :
  In (spotify (seek 58000) (Rejected 500))
     (emitted (updateState (world_seek_fails 500) "YMCA" initialState)) /\
  held (updateState (world_seek_fails 500) "YMCA" initialState) = "YMCA" /\
  logs_after_rejection (emitted (updateState (world_seek_fails 500) "YMCA" initialState))
    = false.
Proof.
  assert (Hin : In (spotify (seek 58000) (Rejected 500))
                   (emitted (updateState (world_seek_fails 500) "YMCA" initialState))).
  { vm_compute. auto. }
  split; [exact Hin |].
  destruct (other_rejection_is_swallowed _ _ _ _ _ Hin) as (_ & Hh & _ & _ & Hl & _).
  - discriminate.
  - exact (conj Hh Hl).
Defined.

(** C3 fails as stated: a play request rejected with status 500 leaves no
    trace on the console; the events end with the rejected request and the
    only console line is the one printed before it. *)
Lemma rejection_is_not_logged :
  emitted (updateState (world_play_fails 500) "YMCA" initialState) =
    [console_log ["Updating State:"; "YMCA"];
     spotify (play "kitchen-speaker" [Some "spotify:track:7Cp69rNBwU0gaFT8zxExlE"])
       (Rejected 500)] /\
  500%Z <> 401%Z /\
  logs_after_rejection
    (emitted (updateState (world_play_fails 500) "YMCA" initialState)) = false /\
  existsb (fun e => match e with console_error _ => true | _ => false end)
    (emitted (updateState (world_play_fails 500) "YMCA" initialState)) = false.
Proof. vm_compute. repeat split; discriminate. Qed.

Lemma play_carries_device_seek_does_not_witness :
  In (spotify (seek 58000) Resolved) (emitted (updateState world_ok "YMCA" initialState)) /\
  request_device_id (seek 58000) = None.
Proof.
  assert (Hin : In (spotify (seek 58000) Resolved)
                   (emitted (updateState world_ok "YMCA" initialState))).
  { vm_compute. auto. }
  split; [exact Hin |].
  destruct (play_carries_device_seek_does_not _ _ _ _ _ Hin)
    as [(device & _ & Hrq & _) | (pos & _ & _ & Hid)].
  - discriminate Hrq.
  - exact Hid.
Defined.

(** C4 fails as stated: the seek request that follows the play request for
    YMCA carries the position and no device identifier, while the play
    request carries the selected device. *)
Lemma seek_request_has_no_device :
  getSelectedDevice world_ok = Normal "kitchen-speaker" /\
  emitted (updateState world_ok "YMCA" initialState) =
    [console_log ["Updating State:"; "YMCA"];
     spotify (play "kitchen-speaker" [Some "spotify:track:7Cp69rNBwU0gaFT8zxExlE"])
       Resolved;
     spotify (seek 58000) Resolved] /\
  request_device_id (seek 58000) = None /\
  request_device_id (seek 58000) <> Some "kitchen-speaker".
Proof. vm_compute. repeat split; discriminate. Qed.

Lemma awaited_calls_play_once_witness :
  held (feed "YMCA" [world_ok; world_ok; world_ok] initialState) = "YMCA" /\
  count is_play (emitted (feed "YMCA" [world_ok; world_ok; world_ok] initialState))
    = 1%nat.
Proof.
  destruct (awaited_calls_play_once "YMCA" world_ok [world_ok; world_ok]
              initialState "kitchen-speaker") as (_ & _ & _ & _ & Hh & _ & Hc).
  - simpl. auto.
  - discriminate.
  - reflexivity.
  - simpl. lia.
  - exact (conj Hh Hc).
Defined.

Lemma updateState_holds_new_name_witness :
  held (updateState (world_play_fails 500) "Macarena" "YMCA") = "Macarena" /\
  emitted (feed "Macarena" [world_ok; world_ok] "YMCA") =
    [console_log ["Updating State:"; "Macarena"];
     console_error ["Could not find the song for the state:"; "Macarena"]].
Proof.
  split.
  - apply (updateState_holds_new_name (world_play_fails 500) "Macarena" "YMCA").
    right. exists "kitchen-speaker". reflexivity.
  - destruct (updateState_holds_new_name world_ok "Macarena" "YMCA") as (_ & _ & H).
    + right. exists "kitchen-speaker". reflexivity.
    + apply (H eq_refl); discriminate.
Defined.

(** C9 does not hold of the code: with nothing selected in the device list
    [getSelectedDevice], which is called outside of the [try], raises before
    the assignment at the end of [updateState] is reached; [currentState]
    keeps its old value, and the next call with the same name is not
    debounced. *)
Lemma no_device_keeps_old_state :
  getSelectedDevice world_no_device = Throw TypeError /\
  updateState world_no_device "YMCA" initialState =
    {| result := Throw TypeError; held := initialState;
       emitted := [console_log ["Updating State:"; "YMCA"]] |} /\
  held (updateState world_no_device "YMCA" initialState) <> "YMCA" /\
  emitted (feed "YMCA" [world_no_device; world_no_device] initialState) =
    [console_log ["Updating State:"; "YMCA"]; console_log ["Updating State:"; "YMCA"]].
Proof. vm_compute. repeat split; discriminate. Qed.

(** C7 does not hold of the code: the test of line 53 reads a
    [currentState] that is assigned only after the awaits (line 83), and
    the frame loop does not wait for a call to end.  The same YMCA pose in
    two consecutive frames, the second arriving while the play request of
    the first has not settled, sends two play requests, and [currentState]
    is still the initial one after both frames; once the four requests
    have settled "YMCA" is held and two play requests have been sent.
    When the first call has ended before the second frame, one play
    request is sent.  With nothing selected in the device list the two
    frames send no play request, make no transition, and the repeat logs
    again. *)
Theorem repeated_frame_plays_again :
  trace (execute [Frame ymca_frame; Frame ymca_frame] (fresh initialState)) =
    [console_log ["Updating State:"; "YMCA"];
     spotify (play "kitchen-speaker" [Some "spotify:track:7Cp69rNBwU0gaFT8zxExlE"])
       Resolved;
     console_log ["Updating State:"; "YMCA"];
     spotify (play "kitchen-speaker" [Some "spotify:track:7Cp69rNBwU0gaFT8zxExlE"])
       Resolved] /\
  currentState (execute [Frame ymca_frame; Frame ymca_frame] (fresh initialState)) =
    initialState /\
  count is_play
    (trace (execute [Frame ymca_frame; Frame ymca_frame;
                     Settle 0; Settle 0; Settle 0; Settle 0] (fresh initialState))) =
    2%nat /\
  execute [Frame ymca_frame; Frame ymca_frame; Settle 0; Settle 0; Settle 0; Settle 0]
    (fresh initialState) =
  settle_all (execute [Frame ymca_frame; Frame ymca_frame] (fresh initialState)) /\
  count is_play
    (trace (execute [Frame ymca_frame; Settle 0; Settle 0; Frame ymca_frame]
              (fresh initialState))) = 1%nat /\
  execute [Frame no_device_frame; Frame no_device_frame] (fresh initialState) =
    {| currentState := initialState;
       in_flight := [];
       trace := [console_log ["Updating State:"; "YMCA"];
                 console_log ["Updating State:"; "YMCA"]] |}.
Proof. vm_compute. repeat split; reflexivity. Qed.

(** ** More about the classifier *)

Lemma js_lt_gt_exclusive (a b : number) : js_lt a b = true -> js_gt a b = true -> False.
Proof.
  unfold js_gt. destruct a, b; simpl; try discriminate.
  rewrite !Qltb_lt. intros H1 H2. exact (Qlt_irrefl _ (Qlt_trans _ _ _ H1 H2)).
Qed.

Section Exclusive.

Variable minPart : Q.
Variable kps : list Keypoint.t.

(** The head tests of one wrist, as facts about the two numbers compared. *)
Lemma lt_head_gt_head_exclusive p :
  lt_head (getX kps p) (headX minPart kps) = Normal true ->
  gt_head (getX kps p) (headX minPart kps) = Normal true -> False.
Proof.
  intros H1 H2.
  apply lt_head_true in H1 as (a & h & Ha & Hh & Hlt).
  apply gt_head_true in H2 as (a' & h' & Ha' & Hh' & Hgt).
  rewrite Ha in Ha'. rewrite Hh in Hh'. injection Ha' as <-. injection Hh' as <-.
  exact (js_lt_gt_exclusive _ _ Hlt Hgt).
Qed.

Lemma lt_gt_exclusive p1 p2 :
  lt (getY kps p1) (getY kps p2) = Normal true ->
  gt (getY kps p1) (getY kps p2) = Normal true -> False.
Proof.
  intros H1 H2.
  apply lt_true in H1 as (a & b & Ha & Hb & Hlt).
  apply gt_true in H2 as (a' & b' & Ha' & Hb' & Hgt).
  rewrite Ha in Ha'. rewrite Hb in Hb'. injection Ha' as <-. injection Hb' as <-.
  exact (Qlt_irrefl _ (Qlt_trans _ _ _ Hlt Hgt)).
Qed.

Lemma astride_aside_exclusive :
  wristsAstride minPart kps = Normal true ->
  wristsAside minPart kps = Normal true -> False.
Proof.
  unfold wristsAstride, wristsAside. intros H1 H2.
  apply or_true in H1 as [H1 | H1]; apply and_true in H1 as [Hl1 Hr1];
    apply or_true in H2 as [H2 | H2]; apply and_true in H2 as [Hl2 Hr2];
    eauto using lt_head_gt_head_exclusive.
Qed.

Lemma raised_oneArmUp_exclusive :
  lt (getY kps "leftWrist") (getY kps "leftElbow") = Normal true ->
  lt (getY kps "rightWrist") (getY kps "rightElbow") = Normal true ->
  oneArmUp kps = Normal true -> False.
Proof.
  unfold oneArmUp. intros Hl Hr H.
  apply or_true in H as [H | H];
    apply and_true in H as [H H4]; apply and_true in H as [H H3];
    apply and_true in H as [H1 H2];
    eauto using lt_gt_exclusive.
Qed.

(** The three conjuncts of each branch. *)
Lemma isYMCA_parts :
  isYMCA minPart kps = Normal true ->
  isAllConfidentParts minPart kps arms = Normal true /\
  (lt (getY kps "leftWrist") (getY kps "leftElbow") = Normal true /\
   lt (getY kps "rightWrist") (getY kps "rightElbow") = Normal true) /\
  wristsAstride minPart kps = Normal true.
Proof.
  unfold isYMCA. intros H.
  apply and_true in H as [H Hx]. apply and_true in H as [Hc H].
  apply and_true in H as [H H4]; apply and_true in H as [H H3];
    apply and_true in H as [H1 H2]. auto.
Qed.

Lemma isBabyShark_parts :
  isBabyShark minPart kps = Normal true ->
  isAllConfidentParts minPart kps arms = Normal true /\
  oneArmUp kps = Normal true /\ wristsAside minPart kps = Normal true.
Proof.
  unfold isBabyShark. intros H.
  apply and_true in H as [H Hx]. apply and_true in H as [Hc H]. auto.
Qed.

Lemma isDisco_parts :
  isDisco minPart kps = Normal true ->
  isAllConfidentParts minPart kps arms = Normal true /\
  oneArmUp kps = Normal true /\ wristsAstride minPart kps = Normal true.
Proof.
  unfold isDisco. intros H.
  apply and_true in H as [H Hx]. apply and_true in H as [Hc H]. auto.
Qed.

Lemma isThriller_parts :
  isThriller minPart kps = Normal true ->
  isAllConfidentParts minPart kps forearms = Normal true /\
  (lt (getY kps "leftWrist") (getY kps "leftElbow") = Normal true /\
   lt (getY kps "rightWrist") (getY kps "rightElbow") = Normal true) /\
  wristsAside minPart kps = Normal true.
Proof.
  unfold isThriller. intros H.
  apply and_true in H as [H Hx]. apply and_true in H as [Hc H].
  apply and_true in H as [H1 H2]. auto.
Qed.

(** X1: the four gesture tests exclude each other: whatever the pose and
    the threshold, no two of them hold together, so the order of the
    branches never decides between two matching gestures. *)
Theorem gesture_tests_exclude_each_other :
  ~ (isYMCA minPart kps = Normal true /\ isBabyShark minPart kps = Normal true) /\
  ~ (isYMCA minPart kps = Normal true /\ isDisco minPart kps = Normal true) /\
  ~ (isYMCA minPart kps = Normal true /\ isThriller minPart kps = Normal true) /\
  ~ (isBabyShark minPart kps = Normal true /\ isDisco minPart kps = Normal true) /\
  ~ (isBabyShark minPart kps = Normal true /\ isThriller minPart kps = Normal true) /\
  ~ (isDisco minPart kps = Normal true /\ isThriller minPart kps = Normal true).
Proof.
  repeat split; intros [H1 H2];
    try apply isYMCA_parts in H1 as (_ & [? ?] & ?);
    try apply isBabyShark_parts in H1 as (_ & ? & ?);
    try apply isDisco_parts in H1 as (_ & ? & ?);
    try apply isYMCA_parts in H2 as (_ & [? ?] & ?);
    try apply isBabyShark_parts in H2 as (_ & ? & ?);
    try apply isDisco_parts in H2 as (_ & ? & ?);
    try apply isThriller_parts in H2 as (_ & [? ?] & ?);
    eauto using astride_aside_exclusive, raised_oneArmUp_exclusive.
Qed.

End Exclusive.

(** X2: on a pose that contains every part the classifier looks up, the
    chain returns a name exactly when the test of that name holds, and none
    exactly when all four tests are false: the result does not depend on the
    order of the branches. *)
Theorem matched_iff_test minPart kps :
  complete kps ->
  (matchedGesture minPart kps = Normal (Some "YMCA") <->
     isYMCA minPart kps = Normal true) /\
  (matchedGesture minPart kps = Normal (Some "Baby Shark") <->
     isBabyShark minPart kps = Normal true) /\
  (matchedGesture minPart kps = Normal (Some "Disco") <->
     isDisco minPart kps = Normal true) /\
  (matchedGesture minPart kps = Normal (Some "Thriller") <->
     isThriller minPart kps = Normal true) /\
  (matchedGesture minPart kps = Normal None <->
     isYMCA minPart kps = Normal false /\ isBabyShark minPart kps = Normal false /\
     isDisco minPart kps = Normal false /\ isThriller minPart kps = Normal false).
Proof.
  intros Hc.
  destruct (gesture_tests_exclude_each_other minPart kps)
    as (E12 & E13 & E14 & E23 & E24 & E34).
  destruct (matchedGesture_total minPart kps Hc) as [r Hr].
  assert (Hback : forall g, r = Some g ->
    (g = "YMCA" /\ isYMCA minPart kps = Normal true) \/
    (g = "Baby Shark" /\ isBabyShark minPart kps = Normal true) \/
    (g = "Disco" /\ isDisco minPart kps = Normal true) \/
    (g = "Thriller" /\ isThriller minPart kps = Normal true)).
  { intros g ->. apply matchedGesture_Some. exact Hr. }
  assert (Hnone : r = None ->
    isYMCA minPart kps = Normal false /\ isBabyShark minPart kps = Normal false /\
    isDisco minPart kps = Normal false /\ isThriller minPart kps = Normal false).
  { intros ->. apply matchedGesture_None. exact Hr. }
  rewrite Hr.
  repeat split.
  all: try (intros H; injection H as H;
            destruct (Hback _ H) as [[E ?] | [[E ?] | [[E ?] | [E ?]]]];
            first [assumption | discriminate E]).
  all: try (intros H; destruct r as [g |];
            [ f_equal; f_equal;
              destruct (Hback g eq_refl) as [[-> ?] | [[-> ?] | [[-> ?] | [-> ?]]]];
              first [reflexivity | exfalso; tauto]
            | destruct (Hnone eq_refl) as (? & ? & ? & ?); congruence ]).
  all: try (injection H as ->; destruct (Hnone eq_refl) as (? & ? & ? & ?); assumption).
  intros (H1 & H2 & H3 & H4). destruct r as [g |]; [| reflexivity].
  destruct (Hback g eq_refl) as [[_ ?] | [[_ ?] | [[_ ?] | [_ ?]]]]; congruence.
Qed.

Lemma matched_iff_test_witness :
  isYMCA (1 # 2) (Pose.keypoints ymca_pose) = Normal true.
Proof.
  apply (matched_iff_test (1 # 2) (Pose.keypoints ymca_pose) ymca_pose_complete).
  vm_compute. reflexivity.
Defined.

Lemma map_Normal_inv {A B} (f : A -> completion B) (xs : list A) (bs : list B) :
  Completion.map f xs = Normal bs -> Forall2 (fun a b => f a = Normal b) xs bs.
Proof.
  revert bs. induction xs as [| a xs IH]; intros bs H.
  - simpl in H. injection H as <-. constructor.
  - simpl in H. apply bind_Normal in H as (b & Hb & H).
    apply bind_Normal in H as (bs' & Hbs & H). injection H as <-.
    constructor; auto.
Qed.

Lemma filter_Normal_inv {A} (f : A -> completion bool) (xs ys : list A) :
  Completion.filter f xs = Normal ys ->
  (forall a, In a ys -> In a xs /\ f a = Normal true) /\
  (ys = [] -> forall a, In a xs -> f a = Normal false).
Proof.
  revert ys. induction xs as [| a xs IH]; intros ys H.
  - simpl in H. injection H as <-. split; [intros ? [] | intros _ ? []].
  - simpl in H. apply bind_Normal in H as (keep & Hk & H).
    apply bind_Normal in H as (zs & Hzs & H). injection H as <-.
    destruct (IH zs Hzs) as [IH1 IH2]. destruct keep; split.
    + intros b [<- | Hb]; [split; [left; reflexivity | exact Hk] |].
      destruct (IH1 b Hb). split; [right |]; assumption.
    + discriminate.
    + intros b Hb. destruct (IH1 b Hb). split; [right |]; assumption.
    + intros -> b [<- | Hb]; [exact Hk | exact (IH2 eq_refl b Hb)].
Qed.

(** A part that is present with a confidence above the threshold. *)
Lemma isAllConfidentParts_true minPart kps parts :
  isAllConfidentParts minPart kps parts = Normal true ->
  forall p, In p parts ->
    exists s, getScore kps p = Normal s /\ (minPart < s)%Q.
Proof.
  unfold isAllConfidentParts. intros H.
  apply mbind_Normal in H as (scores & Hm & H). injection H as H.
  apply map_Normal_inv in Hm. rewrite forallb_forall in H.
  induction Hm as [| p s parts scores Hp Hrest IH]; intros q Hq; [destruct Hq |].
  destruct Hq as [<- | Hq].
  - exists s. split; [exact Hp |]. apply Qltb_lt, H. left. reflexivity.
  - apply IH; [| exact Hq]. intros c Hc. apply H. right. exact Hc.
Qed.

(** The mean is NaN for the empty array only. *)
Lemma average_NaN vals : average vals = NaN <-> vals = [].
Proof.
  destruct vals as [| v vals].
  - split; reflexivity.
  - split; [| discriminate]. unfold average. simpl. discriminate.
Qed.

(** What [headX] and [headY] return, whichever coordinate [get] reads: NaN
    when no head part is confident, a number otherwise. *)
Lemma head_mean_value minPart kps (get : string -> completion Q) h :
  (parts ← confidentHeadParts minPart kps;
   vals ← Completion.map get parts;
   Normal (average vals)) = Normal h ->
  (h = NaN /\ head_hidden minPart kps) \/
  (h <> NaN /\
   exists p s, In p headParts /\ getScore kps p = Normal s /\ (minPart < s)%Q).
Proof.
  intros H.
  apply mbind_Normal in H as (parts & Hparts & H).
  apply mbind_Normal in H as (vals & Hvals & H). injection H as <-.
  unfold confidentHeadParts in Hparts.
  apply filter_Normal_inv in Hparts as [Hkept Hempty].
  apply map_Normal_inv in Hvals.
  destruct parts as [| p parts].
  - left. inversion Hvals; subst. split; [apply average_NaN; reflexivity |].
    intros q s Hq Hs Hlt. specialize (Hempty eq_refl q Hq).
    apply mbind_Normal in Hempty as (s' & Hs' & Hk).
    rewrite Hs in Hs'. injection Hs' as <-. injection Hk as Hk.
    apply Qltb_lt in Hlt. congruence.
  - right. split.
    + rewrite average_NaN. inversion Hvals; discriminate.
    + destruct (Hkept p (or_introl eq_refl)) as [Hp Hk].
      apply mbind_Normal in Hk as (s & Hs & Hk). injection Hk as Hk.
      exists p, s. split; [exact Hp |]. split; [exact Hs |]. apply Qltb_lt, Hk.
Qed.

(** X4: [headX] and [headY] are NaN exactly when no head part has a
    confidence above the threshold, where they are the mean of the empty
    array; with one confident head part they are a number.  [headX] returns,
    without raising, whenever the five head parts are among the
    keypoints. *)
Theorem head_reference_is_NaN_iff_hidden minPart kps :
  (forall h, headX minPart kps = Normal h ->
     (h = NaN <-> head_hidden minPart kps)) /\
  (forall h, headY minPart kps = Normal h ->
     (h = NaN <-> head_hidden minPart kps)) /\
  (forall h, headX minPart kps = Normal h \/ headY minPart kps = Normal h ->
     h <> NaN ->
     exists p s, In p headParts /\ getScore kps p = Normal s /\ (minPart < s)%Q) /\
  ((forall p, In p headParts -> find_part kps p <> None) ->
   exists h, headX minPart kps = Normal h).
Proof.
  assert (Hiff : forall get h,
    (parts ← confidentHeadParts minPart kps;
     vals ← Completion.map get parts;
     Normal (average vals)) = Normal h ->
    (h = NaN <-> head_hidden minPart kps)).
  { intros get h H.
    destruct (head_mean_value minPart kps get h H) as [[-> Hh] | [Hn (p & s & Hp & Hs & Hlt)]].
    - tauto.
    - split; [contradiction |]. intros Hh. destruct (Hh p s Hp Hs Hlt). }
  split; [exact (Hiff _) |]. split; [exact (Hiff _) |].
  split; [| apply headX_total].
  intros h [H | H] Hn;
    destruct (head_mean_value minPart kps _ h H) as [[-> _] | [_ Hp]];
    congruence || exact Hp.
Qed.

Lemma head_reference_is_NaN_iff_hidden_witness :
  (Fin (1500 # 5) = NaN <-> head_hidden (1 # 2) (Pose.keypoints ymca_pose)) /\
  (NaN = NaN <-> head_hidden (1 # 2) (Pose.keypoints hidden_head_pose)).
Proof.
  split.
  - destruct (head_reference_is_NaN_iff_hidden (1 # 2) (Pose.keypoints ymca_pose))
      as (H & _). apply H. vm_compute. reflexivity.
  - destruct (head_reference_is_NaN_iff_hidden (1 # 2) (Pose.keypoints hidden_head_pose))
      as (H & _). apply H. vm_compute. reflexivity.
Defined.

(** X3: a gesture is only ever matched on confident parts: when the
    classification is a name, the pose score reaches [minPoseConfidence],
    both wrists and both elbows have a confidence above [minPartConfidence],
    so has at least one head part, and for every gesture but Thriller so have
    both shoulders. *)
Theorem matched_gesture_is_confident minPose minPart pose g :
  classify minPose minPart pose = Normal (Some g) ->
  In g classified_names /\
  (minPose <= Pose.score pose)%Q /\
  (forall p, In p forearms ->
     exists s, getScore (Pose.keypoints pose) p = Normal s /\ (minPart < s)%Q) /\
  (exists p s, In p headParts /\
     getScore (Pose.keypoints pose) p = Normal s /\ (minPart < s)%Q) /\
  (g <> "Thriller" ->
     forall p, In p arms ->
       exists s, getScore (Pose.keypoints pose) p = Normal s /\ (minPart < s)%Q).
Proof.
  intros Hc.
  assert (Hs : (minPose <= Pose.score pose)%Q).
  { unfold classify in Hc. destruct (Qle_bool minPose (Pose.score pose)) eqn:E;
      [apply Qle_bool_iff, E | discriminate]. }
  apply classify_Some in Hc. set (kps := Pose.keypoints pose) in *.
  destruct (matchedGesture_needs _ _ _ Hc) as (Hg & _ & Hoff & _).
  split; [exact Hg |]. split; [exact Hs |].
  assert (Hhead : exists p s, In p headParts /\
            getScore kps p = Normal s /\ (minPart < s)%Q).
  { destruct Hoff as (a & h & _ & Hh & Hcmp).
    destruct (head_mean_value minPart kps (getX kps) h Hh) as [[-> _] | [_ Hp]];
      [| exact Hp].
    destruct (js_lt_NaN_r (Fin a)). destruct Hcmp; congruence. }
  assert (Hfore : forall p, In p forearms -> In p arms) by (simpl; tauto).
  apply matchedGesture_Some in Hc as [[-> H] | [[-> H] | [[-> H] | [-> H]]]].
  - apply isYMCA_parts in H as (H & _).
    pose proof (isAllConfidentParts_true _ _ _ H) as Hall. auto 6.
  - apply isBabyShark_parts in H as (H & _).
    pose proof (isAllConfidentParts_true _ _ _ H) as Hall. auto 6.
  - apply isDisco_parts in H as (H & _).
    pose proof (isAllConfidentParts_true _ _ _ H) as Hall. auto 6.
  - apply isThriller_parts in H as (H & _).
    pose proof (isAllConfidentParts_true _ _ _ H) as Hall.
    split; [exact Hall |]. split; [exact Hhead |]. congruence.
Qed.

Lemma matched_gesture_is_confident_witness :
  exists s, getScore (Pose.keypoints ymca_pose) "leftWrist" = Normal s /\ (1 # 2 < s)%Q.
Proof.
  destruct (matched_gesture_is_confident (1 # 10) (1 # 2) ymca_pose "YMCA")
    as (_ & _ & H & _).
  - vm_compute. reflexivity.
  - apply H. simpl. auto.
Defined.

(** ** More about [updateState] *)

Lemma counts_of_one_call w name cur :
  (count is_play (emitted (updateState w name cur)) <= 1)%nat /\
  (count is_seek (emitted (updateState w name cur)) <= 1)%nat /\
  (count is_authorize (emitted (updateState w name cur)) <= 1)%nat.
Proof.
  updateState_paths w name cur; unfold count;
    cbn [List.filter is_play is_seek is_authorize length]; lia.
Qed.

Lemma seek_follows_resolved_play w name cur ms rp :
  In (spotify (seek ms) rp) (emitted (updateState w name cur)) ->
  member_positive_position (get_songLookup name) = Some ms /\
  exists device before after,
    emitted (updateState w name cur) =
      (before ++ spotify (play device [member_uri (get_songLookup name)]) Resolved
              :: spotify (seek ms) rp :: after)%list.
Proof.
  updateState_paths w name cur; intros Hev; cbn [In] in Hev; solve_in_events;
    try discriminate.
  all: split; [reflexivity |]; eexists _, [_], _; reflexivity.
Qed.

Lemma request_needs_known_new_name w name cur rq rp :
  In (spotify rq rp) (emitted (updateState w name cur)) ->
  cur <> name /\ in_songLookup name = true.
Proof.
  updateState_paths w name cur; intros Hev; cbn [In] in Hev; solve_in_events;
    try discriminate.
  all: split; [apply String.eqb_neq; assumption | reflexivity].
Qed.

Lemma play_request_device w name cur device uris rp :
  In (spotify (play device uris) rp) (emitted (updateState w name cur)) ->
  getSelectedDevice w = Normal device.
Proof.
  updateState_paths w name cur; intros Hev; cbn [In] in Hev; solve_in_events;
    try discriminate; reflexivity.
Qed.

(** X5: one call of [updateState] sends at most one play and one seek
    request and starts the authorization at most once; a seek request comes
    only directly after the play request of the same call has resolved, with
    the positive position of the song; and any request at all means that the
    name differs from the held one and passes the [in songLookup] test. *)
Theorem requests_of_one_call w name cur :
  (count is_play (emitted (updateState w name cur)) <= 1)%nat /\
  (count is_seek (emitted (updateState w name cur)) <= 1)%nat /\
  (count is_authorize (emitted (updateState w name cur)) <= 1)%nat /\
  (forall pos rp, In (spotify (seek pos) rp) (emitted (updateState w name cur)) ->
     member_positive_position (get_songLookup name) = Some pos /\
     exists device before after,
       emitted (updateState w name cur) =
         (before ++ spotify (play device [member_uri (get_songLookup name)]) Resolved
                 :: spotify (seek pos) rp :: after)%list) /\
  (forall rq rp, In (spotify rq rp) (emitted (updateState w name cur)) ->
     cur <> name /\ in_songLookup name = true).
Proof.
  destruct (counts_of_one_call w name cur) as (H1 & H2 & H3).
  repeat (split; [assumption |]). split.
  - intros pos rp. apply seek_follows_resolved_play.
  - intros rq rp. apply request_needs_known_new_name.
Qed.

Lemma getSelectedDevice_throws w ex : getSelectedDevice w = Throw ex -> ex = TypeError.
Proof.
  unfold getSelectedDevice.
  destruct (devices w) as [e |]; [| congruence].
  destruct (js_index (options e) (selectedIndex e)); congruence.
Qed.

(** X6: [updateState] has one way to fail: it either returns normally with
    the new name held, or raises the TypeError of [getSelectedDevice] with
    the old name still held, after the "Updating State:" line and before
    any request. *)
Theorem updateState_outcomes w name cur :
  (result (updateState w name cur) = Normal tt /\
   held (updateState w name cur) = name /\
   (cur = name \/ exists device, getSelectedDevice w = Normal device)) \/
  (result (updateState w name cur) = Throw TypeError /\
   held (updateState w name cur) = cur /\ cur <> name /\
   getSelectedDevice w = Throw TypeError /\
   emitted (updateState w name cur) = [console_log ["Updating State:"; name]]).
Proof.
  updateState_paths w name cur.
  all: try (left; repeat split; eauto; fail).
  - left. apply String.eqb_eq in Hsame. subst. auto.
  - right. pose proof (getSelectedDevice_throws _ _ Hdevice) as ->.
    repeat split; auto. apply String.eqb_neq, Hsame.
Qed.

(** X7: the [in] operator also finds the members that [songLookup] inherits
    from [Object.prototype]: for such a name (for instance "toString"), with
    a device selected, [updateState] reports no missing song but sends a
    play request whose only uri is [undefined], and never seeks. *)
Theorem inherited_name_is_played w name cur device :
  In name Object_prototype -> cur <> name ->
  getSelectedDevice w = Normal device ->
  In (spotify (play device [None]) (play_reply w)) (emitted (updateState w name cur)) /\
  count is_seek (emitted (updateState w name cur)) = 0%nat /\
  (forall args, ~ In (console_error args) (emitted (updateState w name cur))) /\
  held (updateState w name cur) = name.
Proof.
  intros Hname Hne Hd.
  assert (Hin' : in_songLookup name = true /\ get_songLookup name = inherited).
  { simpl in Hname.
    repeat (destruct Hname as [<- | Hname]; [vm_compute; auto |]). destruct Hname. }
  destruct Hin' as [Hin' Hget].
  apply eqb_neq_false in Hne.
  updateState_paths w name cur; try congruence.
  all: rewrite Hget in *; cbn [member_uri member_positive_position] in *;
    try discriminate.
  all: injection Hd as ->.
  all: repeat split; try reflexivity; cbn [In]; auto.
  all: intros args Hargs; solve_in_events; discriminate.
Qed.

Lemma inherited_name_is_played_witness :
  In (spotify (play "kitchen-speaker" [None]) Resolved)
     (emitted (updateState world_ok "toString" initialState)).
Proof.
  apply (inherited_name_is_played world_ok "toString" initialState "kitchen-speaker").
  - simpl. auto 10.
  - discriminate.
  - reflexivity.
Defined.

(** ** Invariants of the frame loop *)

Lemma classified_song g :
  In g classified_names ->
  exists song, songLookup !! g = Some song /\ get_songLookup g = own song /\
    in_songLookup g = true.
Proof.
  intros Hg. simpl in Hg.
  repeat (destruct Hg as [<- | Hg]; [eexists; vm_compute; auto |]). destruct Hg.
Qed.

Lemma updateState_catalog_events w g cur :
  In g classified_names -> Forall catalog_event (emitted (updateState w g cur)).
Proof.
  intros Hg. destruct (classified_song g Hg) as (song & Hlook & Hget & Hk).
  assert (Hp : forall device rp,
            catalog_event (spotify (play device [member_uri (get_songLookup g)]) rp)).
  { intros device rp. rewrite Hget. exists g, song. auto. }
  assert (Hs : forall ms rp,
            member_positive_position (get_songLookup g) = Some ms ->
            catalog_event (spotify (seek ms) rp)).
  { intros ms rp. rewrite Hget. cbn [member_positive_position].
    destruct (Qltb 0 (Song.position song)) eqn:E; [| discriminate].
    intros H. injection H as <-. exists g, song. apply Qltb_lt in E. auto. }
  revert Hp Hs Hk.
  updateState_paths w g cur; intros Hp Hs Hk; try congruence;
    repeat constructor; auto.
Qed.

(** *** What every order of turns preserves *)

Lemma fresh_steady cur : steady cur (fresh cur).
Proof. repeat split; [left; reflexivity | constructor | constructor]. Qed.

Lemma updateState_start_steady cur w g s :
  In g classified_names -> steady cur s -> steady cur (updateState_start w g s).
Proof.
  intros Hg (Hc & Hf & He).
  destruct (classified_song g Hg) as (song & Hlook & Hget & Hk).
  unfold updateState_start. rewrite Hk, Hget. cbn [member_uri].
  destruct (String.eqb (currentState s) g); [repeat split; assumption |].
  destruct (getSelectedDevice w) as [currentDevice | thrown];
    repeat split; cbn [currentState in_flight trace]; try assumption.
  - apply Forall_app. split; [exact Hf |]. constructor; [exact Hg | constructor].
  - apply Forall_app. split; [apply Forall_app; split; [exact He |] |].
    + constructor; [exact I | constructor].
    + constructor; [| constructor]. exists g, song. auto.
  - apply Forall_app. split; [exact He |]. constructor; [exact I | constructor].
Qed.

Lemma catch_block_catalog ex : Forall catalog_event (catch_block ex).
Proof.
  unfold catch_block. destruct (is_401 ex); [constructor; [exact I |] |]; constructor.
Qed.

Lemma updateState_resume_steady cur t s :
  In (newState_of t) classified_names -> steady cur s ->
  steady cur (updateState_resume t s).
Proof.
  intros Hg (Hc & Hf & He).
  destruct (classified_song _ Hg) as (song & Hlook & Hget & Hk).
  destruct t as [w g | w g]; cbn [newState_of] in *; cbn [updateState_resume].
  - destruct (play_reply w) as [| status].
    + rewrite Hget. cbn [member_positive_position].
      destruct (Qltb 0 (Song.position song)) eqn:Hpos.
      * repeat split; cbn [currentState in_flight trace]; try assumption.
        -- apply Forall_app. split; [exact Hf |]. constructor; [exact Hg | constructor].
        -- apply Forall_app. split; [exact He |]. constructor; [| constructor].
           exists g, song. apply Qltb_lt in Hpos. auto.
      * repeat split; cbn [currentState in_flight trace]; auto.
    + repeat split; cbn [currentState in_flight trace]; auto.
      apply Forall_app. split; [exact He | apply catch_block_catalog].
  - destruct (seek_reply w) as [| status];
      repeat split; cbn [currentState in_flight trace]; auto.
    apply Forall_app. split; [exact He | apply catch_block_catalog].
Qed.

Lemma settle_steady cur i s : steady cur s -> steady cur (settle i s).
Proof.
  intros Hs. unfold settle.
  destruct (in_flight s !! i) as [t |] eqn:Hi; [| exact Hs].
  destruct Hs as (Hc & Hf & He).
  apply updateState_resume_steady.
  - rewrite Forall_forall in Hf. apply Hf.
    eapply list_elem_of_lookup_2. exact Hi.
  - repeat split; cbn [currentState in_flight trace]; try assumption.
    apply Forall_forall. intros t' Ht'. rewrite Forall_forall in Hf. apply Hf.
    exact (elem_of_sublist _ _ _ Ht' (sublist_delete _ i)).
Qed.

Lemma poseCallback_start_steady cur w minPose minPart pose s :
  steady cur s -> steady cur (poseCallback_start w minPose minPart pose s).
Proof.
  intros Hs. unfold poseCallback_start.
  destruct (classify minPose minPart pose) as [[g |] |] eqn:Hc; try exact Hs.
  apply updateState_start_steady; [| exact Hs].
  apply classify_Some, matchedGesture_needs in Hc. tauto.
Qed.

Lemma poseDetectionFrame_start_steady cur f s :
  steady cur s -> steady cur (poseDetectionFrame_start f s).
Proof.
  unfold poseDetectionFrame_start, forEach. revert s.
  induction (poses f) as [| p ps IH]; intros s Hs; [exact Hs |].
  cbn [fold_left]. apply IH. apply poseCallback_start_steady. exact Hs.
Qed.

Lemma settle_oldest_steady cur n s : steady cur s -> steady cur (settle_oldest n s).
Proof.
  revert s. induction n as [| n IH]; intros s Hs; [exact Hs |].
  cbn [settle_oldest]. destruct (in_flight s); [exact Hs |].
  apply IH, settle_steady, Hs.
Qed.

(** Whatever the poses and the answers of the environment are and in
    whatever order frames arrive and requests settle, [currentState] is the
    value the page started with or a gesture name, every suspended call
    carries a gesture name, and every event comes from the catalog. *)
Lemma execute_steady cur ts s : steady cur s -> steady cur (execute ts s).
Proof.
  unfold execute. revert s. induction ts as [| t ts IH]; intros s Hs; [exact Hs |].
  cbn [fold_left]. apply IH. destruct t as [f | i]; cbn [take_turn].
  - apply poseDetectionFrame_start_steady, Hs.
  - apply settle_steady, Hs.
Qed.

Lemma poseDetectionFrame_steady f cur :
  (held (poseDetectionFrame f cur) = cur \/
   In (held (poseDetectionFrame f cur)) classified_names) /\
  Forall catalog_event (emitted (poseDetectionFrame f cur)).
Proof.
  unfold poseDetectionFrame. cbn [held emitted].
  destruct (settle_oldest_steady cur
              (waiting_turns (poseDetectionFrame_start f (fresh cur)))
              (poseDetectionFrame_start f (fresh cur))) as (Hc & _ & He).
  - apply poseDetectionFrame_start_steady, fresh_steady.
  - split; assumption.
Qed.

Lemma frames_result fs cur : result (frames fs cur) = Normal tt.
Proof.
  revert cur. induction fs as [| f fs IH]; intros cur; [reflexivity |].
  rewrite frames_cons. cbn [poseDetectionFrame result]. apply IH.
Qed.

(** X8: however many frames are processed and whatever the poses and the
    environment are, the frame loop never sees an exception of a callback,
    and [currentState] is the value it started with or one of the four
    gesture names. *)
Theorem frames_hold_a_gesture_name fs cur :
  result (frames fs cur) = Normal tt /\
  (held (frames fs cur) = cur \/ In (held (frames fs cur)) classified_names).
Proof.
  split; [apply frames_result |].
  revert cur. induction fs as [| f fs IH]; intros cur; [left; reflexivity |].
  rewrite frames_cons. cbn [held].
  destruct (poseDetectionFrame_steady f cur) as [Hf _].
  destruct (IH (held (poseDetectionFrame f cur))) as [-> | H]; auto.
Qed.

(** X9: the frame loop never reports a missing song: every name the
    classifier passes to [updateState] has its own entry in [songLookup], so
    no "Could not find the song" line is printed, every play request carries
    the uri of the song of a gesture, and every seek request its positive
    position. *)
Theorem frames_emit_catalog_events fs cur :
  Forall catalog_event (emitted (frames fs cur)).
Proof.
  revert cur. induction fs as [| f fs IH]; intros cur; [constructor |].
  rewrite frames_cons. cbn [emitted]. apply Forall_app. split; [| apply IH].
  apply poseDetectionFrame_steady.
Qed.

(** *** Frames that arrive before a request has settled *)

Lemma execute_cons t ts s : execute (t :: ts) s = execute ts (take_turn t s).
Proof. reflexivity. Qed.

Lemma single_pose_frame_start w minPose minPart pose g s :
  classify minPose minPart pose = Normal (Some g) ->
  poseDetectionFrame_start
    {| minPoseConfidence := minPose; minPartConfidence := minPart;
       poses := [(pose, w)] |} s =
  updateState_start w g s.
Proof.
  intros Hc. unfold poseDetectionFrame_start, forEach, poseCallback_start.
  cbn [poses fold_left minPoseConfidence minPartConfidence fst snd].
  rewrite Hc. reflexivity.
Qed.

(** As long as no request has settled, every frame in which the pose is
    classified as [g] sends one more play request. *)
Lemma unsettled_frames_play_each w minPose minPart pose g device n s :
  classify minPose minPart pose = Normal (Some g) ->
  currentState s <> g -> getSelectedDevice w = Normal device ->
  let f := {| minPoseConfidence := minPose; minPartConfidence := minPart;
              poses := [(pose, w)] |} in
  currentState (execute (repeat (Frame f) n) s) = currentState s /\
  count is_play (trace (execute (repeat (Frame f) n) s)) =
    (count is_play (trace s) + n)%nat.
Proof.
  intros Hc Hne Hd f.
  assert (Hstart : forall s', poseDetectionFrame_start f s' = updateState_start w g s')
    by (intros s'; apply single_pose_frame_start; exact Hc).
  revert s Hne.
  induction n as [| n IH]; intros s Hne; [cbn; split; [reflexivity | lia] |].
  cbn [repeat]. rewrite execute_cons. cbn [take_turn]. rewrite Hstart.
  pose proof (classify_Some _ _ _ _ Hc) as Hm.
  apply matchedGesture_needs in Hm as [Hg _].
  destruct (updateState_start_plays w g s device Hg Hne Hd) as [Hcur Hplay].
  destruct (IH (updateState_start w g s)) as [Hcur' Hplay']; [congruence |].
  rewrite Hcur', Hplay', Hcur, Hplay. split; [reflexivity | lia].
Qed.


(** ** The device list *)

Lemma lookup_map {A B} (f : A -> B) (l : list A) (n : nat) :
  List.map f l !! n = match l !! n with Some a => Some (f a) | None => None end.
Proof.
  revert n. induction l as [| a l IH]; intros [| n]; simpl; auto.
Qed.

Lemma getSelectedDevice_after ds old index play_rp seek_rp :
  getSelectedDevice
    (world_after (updateDeviceList (DevicesResolved ds) (Some old)) index play_rp seek_rp) =
  if (index <? 0)%Z then Throw TypeError
  else match ds !! Z.to_nat index with
       | Some d => Normal (Device.id d)
       | None => Throw TypeError
       end.
Proof.
  unfold getSelectedDevice, world_after, updateDeviceList, select_of, js_index.
  cbn [deviceResponse dl_select devices options selectedIndex].
  destruct (index <? 0)%Z; [reflexivity |].
  rewrite !lookup_map. destruct (ds !! Z.to_nat index); reflexivity.
Qed.

(** X10: after [updateDeviceList] has filled the list from a resolved
    [getMyDevices], [getSelectedDevice] returns the id of the device at the
    selected index, in the order Spotify returned the devices, and raises a
    TypeError for any index outside of that array; the options that were in
    the list before play no part. *)
Theorem selected_device_after_update ds old index play_rp seek_rp v :
  getSelectedDevice
    (world_after (updateDeviceList (DevicesResolved ds) (Some old)) index play_rp seek_rp)
    = Normal v <->
  (0 <= index)%Z /\ exists d, ds !! Z.to_nat index = Some d /\ Device.id d = v.
Proof.
  rewrite getSelectedDevice_after.
  destruct (index <? 0)%Z eqn:E.
  - apply Z.ltb_lt in E. split; [discriminate | intros [H _]; lia].
  - apply Z.ltb_ge in E. destruct (ds !! Z.to_nat index) as [d |].
    + split.
      * intros H. injection H as <-. eauto.
      * intros (_ & d' & Hd & <-). congruence.
    + split; [discriminate | intros (_ & d' & Hd & _); discriminate].
Qed.

(** X11: with an account that has no device, whatever index the list
    reports, [updateState] cannot change the state: for every name other than
    the held one it prints the "Updating State:" line, raises the TypeError
    of [getSelectedDevice], sends no request and leaves [currentState] as it
    was. *)
Theorem no_device_no_transition old index play_rp seek_rp name cur :
  cur <> name ->
  updateState
    (world_after (updateDeviceList (DevicesResolved []) (Some old)) index play_rp seek_rp)
    name cur =
  {| result := Throw TypeError; held := cur;
     emitted := [console_log ["Updating State:"; name]] |}.
Proof.
  intros Hne.
  set (w := world_after (updateDeviceList (DevicesResolved []) (Some old))
              index play_rp seek_rp).
  assert (Hd : getSelectedDevice w = Throw TypeError).
  { unfold w. rewrite getSelectedDevice_after. destruct (index <? 0)%Z; reflexivity. }
  destruct (updateState_outcomes w name cur)
    as [(_ & _ & [Heq | [device Hdev]]) | (Hr & Hh & _ & _ & He)];
    [congruence | congruence |].
  destruct (updateState w name cur) as [r h e]. cbn in *. congruence.
Qed.

Lemma no_device_no_transition_witness :
  updateState
    (world_after (updateDeviceList (DevicesResolved []) (Some [])) (-1) Resolved Resolved)
    "YMCA" initialState =
  {| result := Throw TypeError; held := initialState;
     emitted := [console_log ["Updating State:"; "YMCA"]] |}.
Proof.
  apply (no_device_no_transition [] (-1) Resolved Resolved "YMCA" initialState).
  discriminate.
Defined.

(** X12: when [getMyDevices] is rejected, [updateDeviceList] always ends in
    a TypeError, because [deviceResponse] is still [undefined] when its
    [devices] are read; the list keeps the options it had, and the
    authorization is started exactly when the status is 401. *)
Theorem rejected_device_query status sel :
  dl_result (updateDeviceList (DevicesRejected status) sel) = Throw TypeError /\
  dl_select (updateDeviceList (DevicesRejected status) sel) = sel /\
  (status = 401%Z ->
     dl_emitted (updateDeviceList (DevicesRejected status) sel) = [redirect_to_authorize]) /\
  (status <> 401%Z ->
     dl_emitted (updateDeviceList (DevicesRejected status) sel) = []).
Proof.
  unfold updateDeviceList, devices_catch, is_401.
  cbn [deviceResponse dl_result dl_select dl_emitted ex_status].
  repeat split.
  - intros ->. reflexivity.
  - intros Hne. apply Z.eqb_neq in Hne. rewrite Hne. reflexivity.
Qed.

Lemma rejected_device_query_witness :
  dl_emitted (updateDeviceList (DevicesRejected 401) (Some [])) = [redirect_to_authorize] /\
  dl_emitted (updateDeviceList (DevicesRejected 500) (Some [])) = [].
Proof.
  split.
  - apply (rejected_device_query 401 (Some [])). reflexivity.
  - apply (rejected_device_query 500 (Some [])). discriminate.
Defined.

(** X13: from the device query to the request: when the list was filled
    from the devices [ds] and the selected index points at the device [d],
    the first call of [updateState] with a gesture name other than the held
    one sends exactly one play request, to the id of [d], and holds the name
    afterwards. *)
Theorem play_goes_to_selected_device ds old index play_rp seek_rp d g cur :
  (0 <= index)%Z -> ds !! Z.to_nat index = Some d ->
  In g classified_names -> cur <> g ->
  let w := world_after (updateDeviceList (DevicesResolved ds) (Some old))
             index play_rp seek_rp in
  held (updateState w g cur) = g /\
  count is_play (emitted (updateState w g cur)) = 1%nat /\
  forall rq rp, In (spotify rq rp) (emitted (updateState w g cur)) ->
    is_play (spotify rq rp) = true -> request_device_id rq = Some (Device.id d).
Proof.
  intros Hi Hd Hg Hne w.
  assert (Hdev : getSelectedDevice w = Normal (Device.id d)).
  { apply selected_device_after_update. eauto. }
  split; [apply (updateState_with_device w g cur _ Hdev) |].
  split; [apply (updateState_plays_once w g cur _ Hg Hne Hdev) |].
  intros rq rp Hin Hplay. destruct rq as [device uris | ms]; [| discriminate].
  apply play_request_device in Hin. cbn [request_device_id]. congruence.
Qed.

Lemma play_goes_to_selected_device_witness :
  held (updateState
          (world_after (updateDeviceList (DevicesResolved two_devices) (Some []))
             1 Resolved Resolved) "Disco" initialState) = "Disco".
Proof.
  apply (play_goes_to_selected_device two_devices [] 1 Resolved Resolved
           (Device.mk "laptop" "Laptop") "Disco" initialState).
  - lia.
  - reflexivity.
  - simpl. auto.
  - discriminate.
Defined.

Lemma selected_device_after_update_witness :
  getSelectedDevice
    (world_after (updateDeviceList (DevicesResolved two_devices) (Some []))
       1 Resolved Resolved) = Normal "laptop".
Proof.
  apply (selected_device_after_update two_devices [] 1 Resolved Resolved "laptop").
  split; [lia |]. exists (Device.mk "laptop" "Laptop"). split; reflexivity.
Defined.

(** ** The script of the page *)

Lemma indexOf_from_range c s i :
  (0 <= i)%Z -> indexOf_from c s i = (-1)%Z \/ (i <= indexOf_from c s i)%Z.
Proof.
  revert i. induction s as [| a s IH]; intros i Hi; simpl; [auto |].
  destruct (Ascii.eqb a c); [right; lia |].
  destruct (IH (i + 1)%Z) as [H | H]; [lia | auto | right; lia].
Qed.

Lemma indexOf_from_none c s i j :
  (0 <= i)%Z -> (0 <= j)%Z ->
  indexOf_from c s i = (-1)%Z -> indexOf_from c s j = (-1)%Z.
Proof.
  revert i j. induction s as [| a s IH]; intros i j Hi Hj; simpl; [auto |].
  destruct (Ascii.eqb a c); [lia |]. apply IH; lia.
Qed.

Lemma indexOf_from_append c before after i :
  (0 <= i)%Z -> indexOf_from c before i = (-1)%Z ->
  indexOf_from c (before ++ String c after) i = (i + Z.of_nat (String.length before))%Z.
Proof.
  revert i. induction before as [| a before IH]; intros i Hi; simpl.
  - intros _. rewrite Ascii.eqb_refl. lia.
  - destruct (Ascii.eqb a c); [lia |]. intros H. rewrite (IH (i + 1)%Z); [lia | lia | exact H].
Qed.

Lemma indexOf_from_found c s i :
  (0 <= i)%Z -> indexOf_from c s i <> (-1)%Z ->
  exists before after,
    s = before ++ String c after /\ indexOf_from c before i = (-1)%Z /\
    indexOf_from c s i = (i + Z.of_nat (String.length before))%Z.
Proof.
  revert i. induction s as [| a s IH]; intros i Hi; simpl; [congruence |].
  destruct (Ascii.eqb a c) eqn:E.
  - intros _. apply Ascii.eqb_eq in E as ->.
    exists EmptyString, s. simpl. repeat split. lia.
  - intros H. destruct (IH (i + 1)%Z) as (before & after & -> & Hb & Hidx); [lia | exact H |].
    exists (String a before), after. simpl. rewrite E. repeat split; [exact Hb | lia].
Qed.

Lemma string_drop_append before c after :
  string_drop (S (String.length before)) (before ++ String c after) = after.
Proof. induction before as [| a before IH]; simpl; auto. Qed.

(** X14: [paramString] is the text after the first "#" of the address, and
    the whole address when it has no "#" (then [indexOf] is -1 and [substr]
    starts at 0); an address with a "#" is the text before it, the "#" and
    [paramString]. *)
Theorem paramString_is_the_fragment href :
  (indexOf "#" href = (-1)%Z -> paramString href = href) /\
  (forall before after,
     indexOf "#" before = (-1)%Z -> href = before ++ String "#" after ->
     paramString href = after) /\
  (indexOf "#" href <> (-1)%Z ->
     exists before,
       indexOf "#" before = (-1)%Z /\
       href = before ++ String "#" (paramString href)).
Proof.
  assert (Hcut : forall before after,
            indexOf "#" before = (-1)%Z ->
            paramString (before ++ String "#" after) = after).
  { intros before after Hb. unfold paramString, indexOf.
    rewrite indexOf_from_append; [| lia | exact Hb].
    unfold substr.
    destruct (0 + Z.of_nat (String.length before) + 1 <? 0)%Z eqn:E;
      [apply Z.ltb_lt in E; lia |].
    replace (Z.to_nat (0 + Z.of_nat (String.length before) + 1))
      with (S (String.length before)) by lia.
    apply string_drop_append. }
  split; [| split].
  - intros H. unfold paramString. rewrite H. reflexivity.
  - intros before after Hb ->. apply Hcut, Hb.
  - intros H. destruct (indexOf_from_found "#" href 0) as (before & after & Heq & Hb & _);
      [lia | exact H |].
    exists before. split; [exact Hb |].
    rewrite Heq at 2. rewrite Heq at 1. f_equal. f_equal.
    symmetry. apply Hcut, Hb.
Qed.

Lemma paramString_is_the_fragment_witness :
  paramString "http://localhost:1234/posemusic-web#access_token=abc" = "access_token=abc".
Proof.
  destruct (paramString_is_the_fragment
              "http://localhost:1234/posemusic-web#access_token=abc") as (_ & H & _).
  apply (H "http://localhost:1234/posemusic-web"); reflexivity.
Defined.

(** X15: whatever [URLSearchParams] returns, after the script of the page
    the token of the Spotify client is the token stored under
    "spotify_access_code"; it is the [access_token] of the address when there
    is one, and the token stored before otherwise; the authorization is
    started exactly when there is neither; and no other key of the session
    storage is touched. *)
Theorem page_load_token (URLSearchParams : string -> list (string * string))
    href sessionStorage :
  let page := loadPage URLSearchParams href sessionStorage in
  pl_sessionStorage page !! "spotify_access_code" = pl_accessToken page /\
  pl_accessToken page =
    match params_get (URLSearchParams (paramString href)) "access_token" with
    | Some token => Some token
    | None => sessionStorage !! "spotify_access_code"
    end /\
  pl_emitted page =
    match pl_accessToken page with
    | Some _ => [console_log [href]]
    | None => [console_log [href]; redirect_to_authorize]
    end /\
  forall key, key <> "spotify_access_code" ->
    pl_sessionStorage page !! key = sessionStorage !! key.
Proof.
  unfold loadPage, storeToken.
  destruct (params_get (URLSearchParams (paramString href)) "access_token")
    as [token |] eqn:Hurl.
  - rewrite lookup_insert_eq. cbn. rewrite lookup_insert_eq.
    repeat split. intros key Hkey. rewrite lookup_insert_ne; [reflexivity | congruence].
  - destruct (sessionStorage !! "spotify_access_code") as [stored |] eqn:Hs;
      cbn; rewrite Hs; repeat split.
Qed.

(** ** Reloading the network *)

Lemma loads_app e1 e2 : loads (e1 ++ e2) = (loads e1 ++ loads e2)%list.
Proof. induction e1 as [| [] e1 IH]; simpl; congruence. Qed.

Lemma disposals_app e1 e2 : disposals (e1 ++ e2) = (disposals e1 ++ disposals e2)%list.
Proof. induction e1 as [| [] e1 IH]; simpl; congruence. Qed.

Lemma loadingUI_app e1 e2 shown :
  loadingUI (e1 ++ e2) shown = loadingUI e2 (loadingUI e1 shown).
Proof. revert shown. induction e1 as [| [] e1 IH]; intros shown; simpl; auto. Qed.


Lemma none_added_trans g1 g2 g3 : none_added g1 g2 -> none_added g2 g3 -> none_added g1 g3.
Proof. unfold none_added. intros (?&?&?&?&?) (?&?&?&?&?). repeat split; lia. Qed.




Section ReloadFacts.

Variable load : Net.config -> bool.

(** The guarantees of two runs add up. *)
Lemma and_then_spec (c1 c2 : Gui.t -> Prop) late a b :
  (forall g g', c1 g -> none_added g g' -> c1 g') ->
  (forall g, reload_spec load c1 late g (a g)) ->
  (forall g, reload_spec load c2 late g (b g)) ->
  forall g, reload_spec load (fun g => c1 g /\ c2 g) late g (and_then a b g).
Proof.
  intros Hstable Ha Hb g. unfold and_then.
  destruct (Ha g) as [Ha1 Ha0]. destruct (completed (a g)) eqn:E; [| split].
  - destruct (Ha1 eq_refl) as (Hn1 & Hc1 & Hcnt1 & Hch1 & Hui1 & Hid1 & Hlate1).
    destruct (Hb (gui (a g))) as [Hb1 Hb0]. split; cbn [gui gui_emitted completed].
    + intros Hdone.
      destruct (Hb1 Hdone) as (Hn2 & Hc2 & Hcnt2 & Hch2 & Hui2 & Hid2 & Hlate2).
      rewrite loads_app, disposals_app, length_app.
      split; [exact (none_added_trans _ _ _ Hn1 Hn2) |].
      split; [split; [exact (Hstable _ _ Hc1 Hn2) | exact Hc2] |].
      split; [lia |].
      split; [rewrite <- app_assoc, Hch2, app_comm_cons, <- Hch1, <- app_assoc;
              reflexivity |].
      split; [intros shown; rewrite loadingUI_app, Hui2, Hui1;
              destruct (loads (gui_emitted (a g))), (loads (gui_emitted (b (gui (a g)))));
              reflexivity |].
      split.
      * intros Hnil. apply app_eq_nil in Hnil as [H1 H2].
        rewrite (Hid2 H2). exact (Hid1 H1).
      * intros Hl Hne.
        destruct (loads (gui_emitted (b (gui (a g))))) as [| cfg l2] eqn:E2.
        -- rewrite (Hid2 eq_refl). apply (Hlate1 Hl). rewrite app_nil_r in Hne. exact Hne.
        -- apply (Hlate2 Hl). discriminate.
    + intros Hfail.
      destruct (Hb0 Hfail) as (cfg & before & Hcfg & Hd & Hch2 & Hui2 & Hp).
      exists cfg, (disposals (gui_emitted (a g)) ++ before)%list.
      rewrite loads_app, disposals_app.
      split; [exact Hcfg |].
      split; [rewrite Hd, app_assoc; reflexivity |].
      split; [rewrite <- app_assoc, Hch2, app_comm_cons, <- Hch1, <- app_assoc;
              reflexivity |].
      split; [intros shown; rewrite loadingUI_app; apply Hui2 | exact Hp].
  - intros Hdone. congruence.
  - intros _. exact (Ha0 eq_refl).
Qed.

Lemma reload_spec_early c g r : reload_spec load c true g r -> reload_spec load c false g r.
Proof.
  intros [H1 H0]. split; [| exact H0].
  intros Hdone. destruct (H1 Hdone) as (?&?&?&?&?&?&_).
  repeat (split; [assumption |]). discriminate.
Qed.

Lemma reloadArchitecture_spec g :
  reload_spec load (fun g => waitingArchitecture g = 0%nat) false g
    (reloadArchitecture load g).
Proof. block_spec load g. Qed.

Lemma reloadMultiplier_spec g :
  reload_spec load (fun g => waitingMultiplier g = 0%nat) true g
    (reloadMultiplier load g).
Proof. block_spec load g. Qed.

Lemma reloadOutputStride_spec g :
  reload_spec load (fun g => waitingOutputStride g = 0%nat) true g
    (reloadOutputStride load g).
Proof. block_spec load g. Qed.

Lemma reloadInputResolution_spec g :
  reload_spec load (fun g => waitingInputResolution g = 0%nat) true g
    (reloadInputResolution load g).
Proof. block_spec load g. Qed.

Lemma reloadQuantBytes_spec g :
  reload_spec load (fun g => waitingQuantBytes g = 0%nat) true g
    (reloadQuantBytes load g).
Proof. block_spec load g. Qed.

Lemma flag_stable (f : Gui.t -> nat) :
  (forall g g', none_added g g' -> (f g' <= f g)%nat) ->
  forall g g', f g = 0%nat -> none_added g g' -> f g' = 0%nat.
Proof. intros H g g' H0 Hn. specialize (H g g' Hn). lia. Qed.

(** All five blocks in a row. *)
Lemma reloadNetwork_spec g :
  reload_spec load
    (fun g => waitingArchitecture g = 0%nat /\ waitingMultiplier g = 0%nat /\
              waitingOutputStride g = 0%nat /\ waitingInputResolution g = 0%nat /\
              waitingQuantBytes g = 0%nat)
    false g (reloadNetwork load g).
Proof.
  unfold reloadNetwork.
  apply and_then_spec; [| apply reloadArchitecture_spec |].
  { apply (flag_stable waitingArchitecture). unfold none_added. tauto. }
  intros g1. apply reload_spec_early.
  apply and_then_spec; [| apply reloadMultiplier_spec |].
  { apply (flag_stable waitingMultiplier). unfold none_added. tauto. }
  apply and_then_spec; [| apply reloadOutputStride_spec |].
  { apply (flag_stable waitingOutputStride). unfold none_added. tauto. }
  apply and_then_spec;
    [| apply reloadInputResolution_spec | apply reloadQuantBytes_spec].
  apply (flag_stable waitingInputResolution). unfold none_added. tauto.
Qed.









(** *** The order of the events *)












(** X19: when a [posenet.load] is rejected, the exception leaves the
    reloading code with the loading UI still shown, the network that
    [guiState] holds is the one that was disposed of last, and the change
    that asked for the load is still waiting. *)
Theorem reload_failure g shown :
  completed (reloadNetwork load g) = false ->
  exists cfg,
    load cfg = false /\
    (disposals (gui_emitted (reloadNetwork load g)) ++ [cfg])%list =
      Gui.net g :: loads (gui_emitted (reloadNetwork load g)) /\
    List.last (disposals (gui_emitted (reloadNetwork load g))) (Gui.net g) =
      Gui.net (gui (reloadNetwork load g)) /\
    loadingUI (gui_emitted (reloadNetwork load g)) shown = Some true /\
    (0 < pending (gui (reloadNetwork load g)))%nat.
Proof.
  intros Hfail. destruct (reloadNetwork_spec g) as [_ H].
  destruct (H Hfail) as (cfg & before & Hcfg & Hd & Hch & Hui & Hp).
  exists cfg. split; [exact Hcfg |]. split; [exact Hch |].
  split; [rewrite Hd; apply last_last |]. split; [apply Hui | exact Hp].
Qed.

End ReloadFacts.




Lemma reload_failure_witness :
  loadingUI (gui_emitted (reloadNetwork (fun _ => false) architecture_change_gui)) None
    = Some true.
Proof.
  destruct (reload_failure (fun _ => false) architecture_change_gui None eq_refl)
    as (cfg & _ & _ & _ & H & _).
  exact H.
Defined.

(** ** The parts that are read *)

Lemma Completion_map_ext {A B} (f g : A -> completion B) (xs : list A) :
  (forall a, In a xs -> f a = g a) -> Completion.map f xs = Completion.map g xs.
Proof.
  induction xs as [| a xs IH]; intros H; [reflexivity |].
  simpl. rewrite (H a (or_introl eq_refl)), IH; [reflexivity |].
  intros b Hb. apply H. right. exact Hb.
Qed.

Lemma Completion_filter_ext {A} (f g : A -> completion bool) (xs : list A) :
  (forall a, In a xs -> f a = g a) -> Completion.filter f xs = Completion.filter g xs.
Proof.
  induction xs as [| a xs IH]; intros H; [reflexivity |].
  simpl. rewrite (H a (or_introl eq_refl)), IH; [reflexivity |].
  intros b Hb. apply H. right. exact Hb.
Qed.

Lemma headX_ext minPart k1 k2 :
  (forall p, In p headParts -> find_part k1 p = find_part k2 p) ->
  headX minPart k1 = headX minPart k2.
Proof.
  intros H. unfold headX.
  assert (Hparts : confidentHeadParts minPart k1 = confidentHeadParts minPart k2).
  { unfold confidentHeadParts. apply Completion_filter_ext.
    intros p Hp. unfold getScore. rewrite (H p Hp). reflexivity. }
  rewrite Hparts.
  destruct (confidentHeadParts minPart k2) as [parts | ex] eqn:E; [| reflexivity].
  unfold confidentHeadParts in E. apply filter_Normal_inv in E as [Hin _].
  cbn [mbind completion_bind Completion.bind].
  rewrite (Completion_map_ext (getX k1) (getX k2)); [reflexivity |].
  intros p Hp. unfold getX. rewrite (H p); [reflexivity | apply Hin, Hp].
Qed.

(** X20: the classification reads eleven parts only: the two wrists,
    elbows and shoulders and the five head parts.  Two poses with the same
    score whose keypoint arrays give the same first keypoint for each of
    these parts are classified alike (also when that is a TypeError),
    whatever else the arrays contain: hips, knees, ankles and repeated
    entries never matter. *)
Theorem classification_reads_eleven_parts minPose minPart pose1 pose2 :
  Pose.score pose1 = Pose.score pose2 ->
  (forall p, In p (arms ++ headParts) ->
     find_part (Pose.keypoints pose1) p = find_part (Pose.keypoints pose2) p) ->
  classify minPose minPart pose1 = classify minPose minPart pose2.
Proof.
  intros Hs H. unfold classify. rewrite Hs.
  destruct (Qle_bool minPose (Pose.score pose2)); [| reflexivity].
  set (k1 := Pose.keypoints pose1) in *. set (k2 := Pose.keypoints pose2) in *.
  assert (Harm : forall p, In p arms -> find_part k1 p = find_part k2 p).
  { intros p Hp. apply H, in_or_app. auto. }
  assert (Hhead : headX minPart k1 = headX minPart k2).
  { apply headX_ext. intros p Hp. apply H, in_or_app. auto. }
  assert (H6 : isAllConfidentParts minPart k1 arms = isAllConfidentParts minPart k2 arms).
  { unfold isAllConfidentParts. rewrite (Completion_map_ext (getScore k1) (getScore k2));
      [reflexivity |]. intros p Hp. unfold getScore. rewrite (Harm p Hp). reflexivity. }
  assert (H4 : isAllConfidentParts minPart k1 forearms =
               isAllConfidentParts minPart k2 forearms).
  { unfold isAllConfidentParts. rewrite (Completion_map_ext (getScore k1) (getScore k2));
      [reflexivity |]. intros p Hp. unfold getScore. rewrite (Harm p); [reflexivity |].
    simpl in *. tauto. }
  assert (Hy : forall p, In p arms -> getY k1 p = getY k2 p).
  { intros p Hp. unfold getY. rewrite (Harm p Hp). reflexivity. }
  assert (Hx : forall p, In p arms -> getX k1 p = getX k2 p).
  { intros p Hp. unfold getX. rewrite (Harm p Hp). reflexivity. }
  unfold matchedGesture, isYMCA, isBabyShark, isDisco, isThriller, oneArmUp,
    wristsAstride, wristsAside.
  rewrite H6, H4, Hhead.
  rewrite (Hy "leftWrist"), (Hy "leftElbow"), (Hy "leftShoulder"),
    (Hy "rightWrist"), (Hy "rightElbow"), (Hy "rightShoulder"),
    (Hx "leftWrist"), (Hx "rightWrist") by (simpl; tauto).
  reflexivity.
Qed.

Lemma classification_reads_eleven_parts_witness :
  classify (1 # 10) (1 # 2)
    (Pose.mk (9 # 10) (Pose.keypoints ymca_pose ++ [kp "leftKnee" (9 # 10) 250 450]))
  = classify (1 # 10) (1 # 2) ymca_pose.
Proof.
  apply classification_reads_eleven_parts; [reflexivity |].
  intros p Hp. simpl in Hp.
  repeat (destruct Hp as [<- | Hp]; [reflexivity |]). destruct Hp.
Defined.

Lemma requests_of_one_call_witness :
  member_positive_position (get_songLookup "YMCA") = Some 58000%Q /\
  "" <> "YMCA".
Proof.
  destruct (requests_of_one_call world_ok "YMCA" initialState) as (_ & _ & _ & Hs & Hr).
  split.
  - apply (Hs 58000%Q Resolved). vm_compute. auto.
  - apply (Hr (seek 58000) Resolved). vm_compute. auto.
Defined.

Lemma page_load_token_witness :
  pl_accessToken
    (loadPage plain_params "http://localhost:1234/posemusic-web#access_token=abc"
       (<["volume" := "7"]> ∅)) = Some "abc" /\
  pl_sessionStorage
    (loadPage plain_params "http://localhost:1234/posemusic-web#access_token=abc"
       (<["volume" := "7"]> ∅)) !! "volume" = Some "7".
Proof.
  destruct (page_load_token plain_params
              "http://localhost:1234/posemusic-web#access_token=abc"
              (<["volume" := "7"]> ∅)) as (_ & Ht & _ & Hk).
  split.
  - rewrite Ht. reflexivity.
  - rewrite Hk; [reflexivity | discriminate].
Defined.
